(** * The request facade of spife ([KnorkRequest])

    A shallow embedding of the per-request facade and of its private
    state holder [Impl]: correlation id derivation, memoized URL and
    accept views, the raw/pipe capability gate and the JSON body
    collection pipeline, followed by the properties established for
    them.

    The state of a request is threaded explicitly: the module-level
    scratch buffer, the [Impl] fields, a small heap for the promises,
    the collecting functions and the sinks, the queue of deferred
    callbacks, and a log of the operations performed on the transport
    stream and on the collaborating libraries. *)

From Stdlib Require Import ZArith NArith List String Ascii Lia Bool.
From stdpp Require Import gmap strings list.

Open Scope string_scope.

(** ** JavaScript values the module manipulates *)

(** [new Error(msg)], possibly tagged afterwards with
    [Object.assign(err, {statusCode: n})]. *)
Record JsError := mkError {
  err_name : string;
  err_message : string;
  err_statusCode : option Z
}.

Definition assign_statusCode (e : JsError) (code : Z) : JsError :=
  {| err_name := err_name e;
     err_message := err_message e;
     err_statusCode := Some code |}.

(** The result of [JSON.parse]. *)
#[local] Unset Elimination Schemes.
Inductive Json :=
| JNull
| JBool (b : bool)
| JNumber (z : Z)
| JString (s : string)
| JArray (items : list Json)
| JObject (members : list (string * Json)).
#[local] Set Elimination Schemes.

(** What [url.parse(str, true)] returns: the parts of the URL with the
    query string decoded into an object. *)
Record UrlObject := {
  url_pathname : string;
  url_search : string;
  url_query : list (string * string)
}.

(** The object of the [accepts] package; it negotiates over the
    request's headers. *)
Record Accept := {
  accept_headers : gmap string string
}.

(** The transport request ([http.IncomingMessage]).  Node stores header
    names in lower case. *)
Record IncomingMessage := {
  headers : gmap string string;
  rawHeaders : list string;
  url : string;
  method : string;
  httpVersion : string
}.

(** [server.opts] and the server. *)
Record Opts := {
  isExternal : bool;
  requestIDHeaders : option (list string);
  opts_maxBodySize : Z
}.

Record Server := {
  opts : Opts
}.

(** ** External collaborators

    [crypto], [uuid], [Buffer#toString], [JSON.parse], [url.parse] and
    [accepts] are libraries: their results are taken as given. *)
Class Platform := {
  (** [crypto.createHash('sha1').update(s).digest('base64')] *)
  sha1_base64 : string -> string;
  (** byte [ii] of the sixteen that the [n]-th call of [uuid.v4]
      produces *)
  uuid_rnds : nat -> nat -> Byte.byte;
  (** [buf.toString('utf8')] *)
  toString_utf8 : list Byte.byte -> string;
  (** [JSON.parse(text)]: the value, or the error it throws *)
  JSON_parse : string -> Json + JsError;
  (** [url.parse(str, true)] *)
  url_parse : string -> UrlObject;
  (** [accepts(req)] *)
  accepts : IncomingMessage -> Accept
}.

(** ** Strings *)

Definition lower_ascii (c : ascii) : ascii :=
  let n := nat_of_ascii c in
  if (65 <=? n)%nat && (n <=? 90)%nat then ascii_of_nat (n + 32) else c.

(** [String.prototype.toLowerCase] on the ASCII range (header names are
    ASCII). *)
Fixpoint toLowerCase (s : string) : string :=
  match s with
  | EmptyString => EmptyString
  | String c rest => String (lower_ascii c) (toLowerCase rest)
  end.

(** JavaScript truthiness of a value that is [null]/[undefined] or a
    string: the empty string is falsy. *)
Definition truthy (v : option string) : bool :=
  match v with
  | Some (String _ _) => true
  | _ => false
  end.

(** [v || null] *)
Definition or_null (v : option string) : option string :=
  if truthy v then v else None.

(** ** Objects

    The property names of [Object.prototype], which every ordinary object
    inherits: the header object of a request, and a controller, are
    ordinary objects. *)
Definition Object_prototype : list string :=
  ["constructor"; "__defineGetter__"; "__defineSetter__"; "hasOwnProperty";
   "__lookupGetter__"; "__lookupSetter__"; "isPrototypeOf";
   "propertyIsEnumerable"; "toString"; "valueOf"; "__proto__";
   "toLocaleString"].

(** [name in o], for an ordinary object with the own properties [o]: own
    and inherited properties both count. *)
Definition js_in {A : Type} (name : string) (o : gmap string A) : bool :=
  bool_decide (is_Some (o !! name)) || bool_decide (name ∈ Object_prototype).

(** ** [Buffer#toString('base64')] *)

Definition b64_alphabet : string :=
  "ABCDEFGHIJKLMNOPQRSTUVWXYZabcdefghijklmnopqrstuvwxyz0123456789+/".

Definition b64_char (n : N) : ascii :=
  match String.get (N.to_nat n) b64_alphabet with
  | Some c => c
  | None => "="%char
  end.

Fixpoint base64 (bs : list Byte.byte) : string :=
  match bs with
  | [] => ""
  | [a] =>
      let n := Byte.to_N a in
      String (b64_char (n / 4))
        (String (b64_char ((n mod 4) * 16)) "==")
  | [a; b] =>
      let n := (Byte.to_N a * 256 + Byte.to_N b)%N in
      String (b64_char (n / 1024))
        (String (b64_char ((n / 16) mod 64))
           (String (b64_char ((n mod 16) * 4)) "="))
  | a :: b :: c :: rest =>
      let n := (Byte.to_N a * 65536 + Byte.to_N b * 256 + Byte.to_N c)%N in
      String (b64_char (n / 262144))
        (String (b64_char ((n / 4096) mod 64))
           (String (b64_char ((n / 64) mod 64))
              (String (b64_char (n mod 64)) (base64 rest))))
  end.

(** ** The heap of one request *)

Inductive PromiseState :=
| Pending
| Fulfilled (v : Json)
| Rejected (e : JsError).

(** The function that the outer [getBody(impl, req)] returns: its
    captured [triggered] flag and [promise]. *)
Record BodyClosure := {
  cl_triggered : bool;
  cl_promise : nat
}.

(** The [Writable] that [collectBody] pipes the request into: the
    captured [bytesWritten] and [acc], whether [_write] has been replaced
    by [() => {}], and the promise its handlers settle. *)
Record Sink := {
  bytesWritten : Z;
  acc : list (list Byte.byte);
  write_inert : bool;
  sink_promise : nat
}.

(** What [impl.body] holds once set. *)
Inductive BodyValue :=
| BodyFn (c : nat)
| BodyPromise (p : nat).

(** What [impl._getBody] holds: the arrow function installed by the
    constructor, or the one installed by [disableBody]. *)
Inductive BodyFactory :=
| CollectFactory
| DisabledFactory (reason : JsError).

Record Impl := {
  impl_id : option string;
  impl_url : option UrlObject;
  impl_accept : option Accept;
  impl_body : option BodyValue;
  impl_getBody : BodyFactory;
  (** no statement of the module assigns [maxBodySize]; [None] is
      [undefined] *)
  impl_maxBodySize : option Z
}.

(** Arguments and results of the calls a handler can make. *)
Inductive Value :=
| VUndefined
| VString (s : string)
| VReq
| VDest (d : nat)
| VPipeFn
| VBodyFn (c : nat)
| VPromise (p : nat)
| VUrl (u : UrlObject)
| VQuery (q : list (string * string))
| VAccept (a : Accept)
| VHeaders (h : gmap string string)
| VRawHeaders (h : list string).

(** Deferred callbacks: the [setImmediate] of [getDisabledBody] and the
    [then]/[catch] reactions attached by the [end] function of
    [collectBody]. *)
Inductive Job :=
| JobResolve (p : nat) (v : Json)
| JobReject (p : nat) (e : JsError).

(** Observable operations, oldest first. *)
Inductive Event :=
| EvUrlParse
| EvAccepts
| EvPipe (sink : nat)
| EvUnpipe (sink : nat)
| EvWrite (sink : nat) (len : nat)
| EvEnd (sink : nat)
| EvRawPipe (args : list Value)
| EvResolve (p : nat) (v : Json)
| EvReject (p : nat) (e : JsError).

(** Module-level state shared by all requests: [ID_SCRATCH_BUFFER] and
    the number of [uuid.v4] calls made so far. *)
Record ModuleState := {
  ID_SCRATCH_BUFFER : list Byte.byte;
  uuid_calls : nat
}.

Record World := {
  modstate : ModuleState;
  (** [KNORK_TO_REQ.get(kreq)] and the sinks piped from it *)
  req : IncomingMessage;
  pipes : list nat;
  (** [KNORK_TO_IMPL.get(kreq)] *)
  impl : Impl;
  promises : list PromiseState;
  closures : list BodyClosure;
  sinks : list Sink;
  queue : list Job;
  log : list Event
}.

Definition set_modstate (m : ModuleState) (w : World) : World :=
  {| modstate := m; req := req w; pipes := pipes w; impl := impl w;
     promises := promises w; closures := closures w; sinks := sinks w;
     queue := queue w; log := log w |}.

Definition set_impl (i : Impl) (w : World) : World :=
  {| modstate := modstate w; req := req w; pipes := pipes w; impl := i;
     promises := promises w; closures := closures w; sinks := sinks w;
     queue := queue w; log := log w |}.

Definition set_promises (ps : list PromiseState) (w : World) : World :=
  {| modstate := modstate w; req := req w; pipes := pipes w; impl := impl w;
     promises := ps; closures := closures w; sinks := sinks w;
     queue := queue w; log := log w |}.

Definition set_closures (cs : list BodyClosure) (w : World) : World :=
  {| modstate := modstate w; req := req w; pipes := pipes w; impl := impl w;
     promises := promises w; closures := cs; sinks := sinks w;
     queue := queue w; log := log w |}.

Definition set_sinks (ss : list Sink) (w : World) : World :=
  {| modstate := modstate w; req := req w; pipes := pipes w; impl := impl w;
     promises := promises w; closures := closures w; sinks := ss;
     queue := queue w; log := log w |}.

Definition set_pipes (ps : list nat) (w : World) : World :=
  {| modstate := modstate w; req := req w; pipes := ps; impl := impl w;
     promises := promises w; closures := closures w; sinks := sinks w;
     queue := queue w; log := log w |}.

Definition set_queue (q : list Job) (w : World) : World :=
  {| modstate := modstate w; req := req w; pipes := pipes w; impl := impl w;
     promises := promises w; closures := closures w; sinks := sinks w;
     queue := q; log := log w |}.

Definition emit (e : Event) (w : World) : World :=
  {| modstate := modstate w; req := req w; pipes := pipes w; impl := impl w;
     promises := promises w; closures := closures w; sinks := sinks w;
     queue := queue w; log := log w ++ [e] |}.

Definition set_id (v : option string) (i : Impl) : Impl :=
  {| impl_id := v; impl_url := impl_url i; impl_accept := impl_accept i;
     impl_body := impl_body i; impl_getBody := impl_getBody i;
     impl_maxBodySize := impl_maxBodySize i |}.

Definition set_url (v : option UrlObject) (i : Impl) : Impl :=
  {| impl_id := impl_id i; impl_url := v; impl_accept := impl_accept i;
     impl_body := impl_body i; impl_getBody := impl_getBody i;
     impl_maxBodySize := impl_maxBodySize i |}.

Definition set_accept (v : option Accept) (i : Impl) : Impl :=
  {| impl_id := impl_id i; impl_url := impl_url i; impl_accept := v;
     impl_body := impl_body i; impl_getBody := impl_getBody i;
     impl_maxBodySize := impl_maxBodySize i |}.

Definition set_body (v : option BodyValue) (i : Impl) : Impl :=
  {| impl_id := impl_id i; impl_url := impl_url i;
     impl_accept := impl_accept i; impl_body := v;
     impl_getBody := impl_getBody i;
     impl_maxBodySize := impl_maxBodySize i |}.

Definition set_getBody (f : BodyFactory) (i : Impl) : Impl :=
  {| impl_id := impl_id i; impl_url := impl_url i;
     impl_accept := impl_accept i; impl_body := impl_body i;
     impl_getBody := f; impl_maxBodySize := impl_maxBodySize i |}.

(** A call either returns or throws. *)
Inductive Completion (A : Type) :=
| Normal (a : A)
| Throws (e : JsError).
Arguments Normal {A} a.
Arguments Throws {A} e.

Definition TypeError (msg : string) : JsError :=
  {| err_name := "TypeError"; err_message := msg; err_statusCode := None |}.

Section Request.

Context `{Platform}.

(** ** Correlation id *)

(** [uuid.v4(null, ID_SCRATCH_BUFFER)]: writes sixteen bytes at offset
    0 (a write past the end of a buffer is dropped). *)
Definition uuid_v4 (m : ModuleState) : ModuleState :=
  let rnds := map (uuid_rnds (uuid_calls m)) (seq 0 16) in
  {| ID_SCRATCH_BUFFER := list_inserts 0 rnds (ID_SCRATCH_BUFFER m);
     uuid_calls := S (uuid_calls m) |}.

Definition generateID (m : ModuleState) : string * ModuleState :=
  let m1 := uuid_v4 m in
  (base64 (ID_SCRATCH_BUFFER m1), m1).

(** The [for] loop of [hashIncoming]: the value of [i] when it stops.
    [search[i].toLowerCase() in headers] holds for a header of the
    request and for a property that the header object inherits. *)
Fixpoint hashIncoming_scan (hs : gmap string string) (search : list string)
    (i : nat) : nat :=
  match search with
  | [] => i
  | s :: rest =>
      if js_in (toLowerCase s) hs then i
      else hashIncoming_scan hs rest (S i)
  end.

(** [hash.update(data)] throws on a value that is neither a string nor a
    buffer.  [data] is [headers[search[i]]]: a string when the request
    carries a header of that name, and otherwise [undefined] or a
    property inherited from [Object.prototype] (a function or an object),
    here [None]. *)
Definition sha1_update_digest (data : option string) : Completion string :=
  match data with
  | Some s => Normal (sha1_base64 s)
  | None => Throws (TypeError "Data must be a string or a buffer")
  end.

Definition hashIncoming (hs : gmap string string) (search : list string)
    (m : ModuleState) : Completion (option string) * ModuleState :=
  let i := hashIncoming_scan hs search 0 in
  if (i =? length search)%nat then (Normal None, m)
  else
    match sha1_update_digest (search !! i ≫= fun key => hs !! key) with
    | Throws e => (Throws e, m)
    | Normal hash =>
        let '(suffix, m1) := generateID m in
        (Normal (Some (hash +:+ "-" +:+ suffix)), m1)
    end.

(** ** Promises and deferred callbacks *)

Definition new_promise (w : World) : nat * World :=
  (length (promises w), set_promises (promises w ++ [Pending]) w).

(** Only a pending promise changes state. *)
Definition settle (p : nat) (s : PromiseState) (w : World) : World :=
  match promises w !! p with
  | Some Pending => set_promises (<[p := s]> (promises w)) w
  | _ => w
  end.

Definition resolve (p : nat) (v : Json) (w : World) : World :=
  settle p (Fulfilled v) (emit (EvResolve p v) w).

Definition reject (p : nat) (e : JsError) (w : World) : World :=
  settle p (Rejected e) (emit (EvReject p e) w).

Definition defer (j : Job) (w : World) : World :=
  set_queue (queue w ++ [j]) w.

Definition run_job (w : World) (j : Job) : World :=
  match j with
  | JobResolve p v => resolve p v w
  | JobReject p e => reject p e w
  end.

(** The deferred callbacks run once the current turn is over. *)
Definition run_queue (w : World) : World :=
  fold_left run_job (queue w) (set_queue [] w).

(** ** Body collection *)

Definition getDisabledBody (reason : JsError) (w : World) : nat * World :=
  let '(p, w1) := new_promise w in
  (p, defer (JobReject p reason) w1).

(** [bytesWritten < impl.maxBodySize]: a comparison with [undefined] is
    false. *)
Definition js_lt (a : Z) (b : option Z) : bool :=
  match b with
  | Some m => (a <? m)%Z
  | None => false
  end.

Definition payload_too_large : JsError :=
  assign_statusCode
    {| err_name := "Error"; err_message := "Request payload is too large.";
       err_statusCode := None |} 413.

(** [req.unpipe(dest)] *)
Definition unpipe (s : nat) (w : World) : World :=
  emit (EvUnpipe s) (set_pipes (filter (fun x => x ≠ s) (pipes w)) w).

(** The [write] handler of [collectBody]; once [this._write] has been
    replaced, a write does nothing. *)
Definition sink_write (s : nat) (chunk : list Byte.byte) (w : World)
    : World :=
  match sinks w !! s with
  | None => w
  | Some k =>
      if write_inert k then w
      else
        let k1 := {| bytesWritten := bytesWritten k + Z.of_nat (length chunk);
                     acc := acc k ++ [chunk];
                     write_inert := false;
                     sink_promise := sink_promise k |} in
        let w1 := set_sinks (<[s := k1]> (sinks w)) w in
        if js_lt (bytesWritten k1) (impl_maxBodySize (impl w1)) then w1
        else
          let w2 := unpipe s w1 in
          let k2 := {| bytesWritten := bytesWritten k1; acc := acc k1;
                       write_inert := true;
                       sink_promise := sink_promise k1 |} in
          let w3 := set_sinks (<[s := k2]> (sinks w2)) w2 in
          reject (sink_promise k1) payload_too_large w3
  end.

(** The function that [collectBody] passes to [Writable] under the name
    [end]: the parse would run at once, and the [then]/[catch] reaction
    that settles the promise would be deferred.  [stream.Writable] reads
    [write] from its options and no [end]: the stream never calls this
    function (see [source_end]). *)
Definition sink_end (s : nat) (w : World) : World :=
  match sinks w !! s with
  | None => w
  | Some k =>
      match JSON_parse (toString_utf8 (concat (acc k))) with
      | inl obj => defer (JobResolve (sink_promise k) obj) w
      | inr err =>
          defer (JobReject (sink_promise k) (assign_statusCode err 400)) w
      end
  end.

(** The transport stream: it hands each chunk to the [write] handler of
    every sink that is piped from it at that moment, and nothing to a
    sink that has been unpiped. *)
Definition source_data (chunk : list Byte.byte) (w : World) : World :=
  fold_left
    (fun w s =>
       if bool_decide (s ∈ pipes w)
       then sink_write s chunk (emit (EvWrite s (length chunk)) w)
       else w)
    (pipes w) w.

(** At its end the stream calls [Writable.prototype.end] on every sink
    still piped from it.  That method is the one of the library: the
    [end] function among the options of [collectBody] is not consulted,
    and no handler of the facade runs. *)
Definition source_end (w : World) : World :=
  fold_left
    (fun w s => if bool_decide (s ∈ pipes w) then emit (EvEnd s) w else w)
    (pipes w) w.

(** [collectBody]: [req.pipe(new Writable({write, end}))] *)
Definition collectBody (p : nat) (w : World) : World :=
  let s := length (sinks w) in
  let w1 :=
    set_sinks
      (sinks w ++ [{| bytesWritten := 0; acc := []; write_inert := false;
                      sink_promise := p |}]) w in
  emit (EvPipe s) (set_pipes (pipes w1 ++ [s]) w1).

(** The outer [getBody(impl, req)]: creates the promise and the
    [triggered] flag and returns the inner function. *)
Definition getBody (w : World) : nat * World :=
  let '(p, w1) := new_promise w in
  (length (closures w1),
   set_closures
     (closures w1 ++ [{| cl_triggered := false; cl_promise := p |}]) w1).

(** The inner [getBody], called. *)
Definition getBody_closure (c : nat) (w : World)
    : Completion Value * World :=
  match closures w !! c with
  | None => (Throws (TypeError "not a function"), w)
  | Some cl =>
      if cl_triggered cl then (Normal (VPromise (cl_promise cl)), w)
      else
        let w1 :=
          set_closures
            (<[c := {| cl_triggered := true;
                       cl_promise := cl_promise cl |}]> (closures w)) w in
        (Normal (VPromise (cl_promise cl)), collectBody (cl_promise cl) w1)
  end.

(** ** [Impl] *)

Definition default_requestIDHeaders : list string := ["request-id"].

Definition Impl_constructor (r : IncomingMessage) (server : Server)
    (m : ModuleState) : Completion Impl * ModuleState :=
  let '(i, m1) :=
    if isExternal (opts server)
    then hashIncoming (headers r)
           (default default_requestIDHeaders
              (requestIDHeaders (opts server))) m
    else (Normal (or_null (headers r !! "request-id")), m) in
  match i with
  | Throws e => (Throws e, m1)
  | Normal v =>
      (Normal {| impl_id := v; impl_url := None; impl_accept := None;
                 impl_body := None; impl_getBody := CollectFactory;
                 impl_maxBodySize := None |}, m1)
  end.

Definition Impl_getID (w : World) : string * World :=
  match impl_id (impl w) with
  | Some (String a s) => (String a s, w)
  | _ =>
      let m1 := uuid_v4 (modstate w) in
      let v := base64 (ID_SCRATCH_BUFFER m1) in
      (v, set_impl (set_id (Some v) (impl w)) (set_modstate m1 w))
  end.

Definition Impl_getURL (w : World) : UrlObject * World :=
  match impl_url (impl w) with
  | Some u => (u, w)
  | None =>
      let u := url_parse (url (req w)) in
      (u, set_impl (set_url (Some u) (impl w)) (emit EvUrlParse w))
  end.

Definition Impl_getAccepts (w : World) : Accept * World :=
  match impl_accept (impl w) with
  | Some a => (a, w)
  | None =>
      let a := accepts (req w) in
      (a, set_impl (set_accept (Some a) (impl w)) (emit EvAccepts w))
  end.

(** [this._getBody()] *)
Definition call_getBody_factory (w : World) : BodyValue * World :=
  match impl_getBody (impl w) with
  | CollectFactory => let '(c, w1) := getBody w in (BodyFn c, w1)
  | DisabledFactory reason =>
      let '(p, w1) := getDisabledBody reason w in (BodyPromise p, w1)
  end.

Definition Impl_getBody (w : World) : BodyValue * World :=
  match impl_body (impl w) with
  | Some v => (v, w)
  | None =>
      let '(v, w1) := call_getBody_factory w in
      (v, set_impl (set_body (Some v) (impl w1)) w1)
  end.

Definition Impl_disableBody (reason : JsError) (w : World) : World :=
  set_impl (set_getBody (DisabledFactory reason) (impl w)) w.

(** ** [KnorkRequest] *)

(** [new KnorkRequest(req, server)]: registers [req] and a new [Impl]
    for the facade. *)
Definition makeKnorkRequest (r : IncomingMessage) (server : Server)
    (m : ModuleState) : Completion World :=
  match Impl_constructor r server m with
  | (Throws e, _) => Throws e
  | (Normal i, m1) =>
      Normal {| modstate := m1; req := r; pipes := []; impl := i;
                promises := []; closures := []; sinks := []; queue := [];
                log := [] |}
  end.

Definition dquote : string := String "034"%char "".

(** The [Error] that the [raw] getter creates. *)
Definition raw_accessed : JsError :=
  {| err_name := "Error";
     err_message :=
       "Cannot read the body if " +:+ dquote +:+ "raw" +:+ dquote
       +:+ " has been accessed.";
     err_statusCode := None |}.

Definition KnorkRequest_raw (w : World) : Value * World :=
  (VReq, Impl_disableBody raw_accessed w).

(** [req.pipe(dest)] of the transport stream, towards a destination of
    the caller: it returns the destination, and fails when there is
    none. *)
Definition IncomingMessage_pipe (args : list Value) (w : World)
    : Completion Value * World :=
  let w1 := emit (EvRawPipe args) w in
  match args with
  | VDest d :: _ => (Normal (VDest d), w1)
  | _ => (Throws (TypeError "Cannot read property 'on' of undefined"), w1)
  end.

(** The [arguments] object of the [pipe] getter: a getter is called
    with no argument. *)
Definition pipe_getter_arguments : list Value := [].

(** The arrow function that the [pipe] getter returns,
    [() => this.raw.pipe.apply(this.raw, arguments)], called with
    [own_args].  An arrow function has no [arguments] of its own: the
    name denotes the [arguments] of the enclosing getter. *)
Definition pipe_arrow (own_args : list Value) (w : World)
    : Completion Value * World :=
  let '(_, w1) := KnorkRequest_raw w in
  let '(_, w2) := KnorkRequest_raw w1 in
  IncomingMessage_pipe pipe_getter_arguments w2.

Definition value_of_body (b : BodyValue) : Value :=
  match b with
  | BodyFn c => VBodyFn c
  | BodyPromise p => VPromise p
  end.

(** The getters of the facade. *)
Inductive Property :=
| PRaw | PPipe | PId | PBody | PHeaders | PRawHeaders | PUrlObject | PUrl
| PQuery | PMethod | PHttpVersion | PAccept.

Definition KnorkRequest_get (prop : Property) (w : World) : Value * World :=
  match prop with
  | PRaw => KnorkRequest_raw w
  | PPipe => (VPipeFn, w)
  | PId => let '(s, w1) := Impl_getID w in (VString s, w1)
  | PBody => let '(b, w1) := Impl_getBody w in (value_of_body b, w1)
  | PHeaders => (VHeaders (headers (req w)), w)
  | PRawHeaders => (VRawHeaders (rawHeaders (req w)), w)
  | PUrlObject => let '(u, w1) := Impl_getURL w in (VUrl u, w1)
  | PUrl => (VString (url (req w)), w)
  | PQuery => let '(u, w1) := Impl_getURL w in (VQuery (url_query u), w1)
  | PMethod => (VString (method (req w)), w)
  | PHttpVersion => (VString (httpVersion (req w)), w)
  | PAccept => let '(a, w1) := Impl_getAccepts w in (VAccept a, w1)
  end.

(** Calling a value obtained from the facade. *)
Definition call (f : Value) (args : list Value) (w : World)
    : Completion Value * World :=
  match f with
  | VPipeFn => pipe_arrow args w
  | VBodyFn c => getBody_closure c w
  | _ => (Throws (TypeError "not a function"), w)
  end.

(** ** The life of a request

    What happens to a request is a sequence of accesses made by handler
    code, of events of the transport stream, and of turns of the event
    loop (at which the deferred callbacks run). *)
Inductive Action :=
| Get (prop : Property)
| Call (f : Value) (args : list Value)
| SourceData (chunk : list Byte.byte)
| SourceEnd
| Turn.

Definition step (a : Action) (w : World) : Completion Value * World :=
  match a with
  | Get prop => let '(v, w1) := KnorkRequest_get prop w in (Normal v, w1)
  | Call f args => call f args w
  | SourceData chunk => (Normal VUndefined, source_data chunk w)
  | SourceEnd => (Normal VUndefined, source_end w)
  | Turn => (Normal VUndefined, run_queue w)
  end.

Fixpoint exec (acts : list Action) (w : World) : World :=
  match acts with
  | [] => w
  | a :: rest => exec rest (snd (step a w))
  end.

(** A request body arriving whole: its chunks, the end of the stream,
    and the turn in which the reactions run. *)
Definition deliver (chunks : list (list Byte.byte)) : list Action :=
  map SourceData chunks ++ [SourceEnd; Turn].

(** [kreq.pipe(...args)]: the getter, then the call of what it
    returned. *)
Definition KnorkRequest_pipe (args : list Value) (w : World)
    : Completion Value * World :=
  let '(f, w1) := KnorkRequest_get PPipe w in
  call f args w1.

End Request.

(** ** Requests used in the statements *)

(** The same transport request without the header [name]. *)
Definition without_header (name : string) (r : IncomingMessage)
    : IncomingMessage :=
  {| headers := delete name (headers r); rawHeaders := rawHeaders r;
     url := url r; method := method r; httpVersion := httpVersion r |}.

(** [ID_SCRATCH_BUFFER] is [new Buffer(16)]. *)
Definition module_ok (m : ModuleState) : Prop :=
  length (ID_SCRATCH_BUFFER m) = 16.

(** The identifier that the next [uuid.v4] call produces. *)
Definition next_id `{Platform} (m : ModuleState) : string :=
  base64 (map (uuid_rnds (uuid_calls m)) (seq 0 16)).

(** The accesses that disable body parsing: reading [raw] and calling
    the function read from [pipe]. *)
Definition disabling (a : Action) : Prop :=
  a = Get PRaw ∨ ∃ args, a = Call VPipeFn args.

Definition total_bytes (chunks : list (list Byte.byte)) : Z :=
  Z.of_nat (length (concat chunks)).

Definition is_write (e : Event) : bool :=
  match e with EvWrite _ _ => true | _ => false end.

Definition is_pipe (e : Event) : bool :=
  match e with EvPipe _ => true | _ => false end.

Definition is_url_parse (e : Event) : bool :=
  match e with EvUrlParse => true | _ => false end.

Definition is_accepts (e : Event) : bool :=
  match e with EvAccepts => true | _ => false end.

Definition settles (p : nat) (e : Event) : bool :=
  match e with
  | EvResolve q _ | EvReject q _ => bool_decide (q = p)
  | _ => false
  end.

(** The events logged by the stream, the sinks and the promises. *)
Definition quiet_event (e : Event) : bool :=
  match e with
  | EvUrlParse | EvAccepts | EvPipe _ => false
  | _ => true
  end.

(** What the memoized accessors depend on and leave behind: the field,
    and the trace of the computation that fills it. *)
Definition id_view (w : World) : option string * ModuleState :=
  (impl_id (impl w), modstate w).

Definition url_view (w : World)
    : option UrlObject * list Event * IncomingMessage :=
  (impl_url (impl w), List.filter is_url_parse (log w), req w).

Definition accept_view (w : World)
    : option Accept * list Event * IncomingMessage :=
  (impl_accept (impl w), List.filter is_accepts (log w), req w).

Definition views (w : World) :=
  (id_view w, url_view w, accept_view w).


(** Invariants of a request created when [c0] identifiers had been
    generated: a set id is a non-empty string, and each memoized
    computation has run once when its field is set, and not at all while
    its field is unset. *)
Definition id_inv (c0 : nat) (w : World) : Prop :=
  module_ok (modstate w) ∧
  match impl_id (impl w) with
  | Some s => s ≠ "" ∧ (uuid_calls (modstate w) ≤ S c0)%nat
  | None => uuid_calls (modstate w) = c0
  end.

Definition url_inv `{Platform} (r : IncomingMessage) (w : World) : Prop :=
  req w = r ∧
  match impl_url (impl w) with
  | Some u =>
      u = url_parse (url r) ∧
      length (List.filter is_url_parse (log w)) = 1
  | None => List.filter is_url_parse (log w) = []
  end.

Definition accept_inv `{Platform} (r : IncomingMessage) (w : World) : Prop :=
  req w = r ∧
  match impl_accept (impl w) with
  | Some a =>
      a = accepts r ∧
      length (List.filter is_accepts (log w)) = 1
  | None => List.filter is_accepts (log w) = []
  end.


(** The body side of a request: what [body] has memoized, the factory
    a first [body] access would call, and everything the collection
    pipeline owns. *)
Definition body_view (w : World) :=
  (impl_body (impl w), impl_getBody (impl w), impl_maxBodySize (impl w),
   promises w, queue w, closures w, sinks w, pipes w,
   List.filter is_pipe (log w)).

(** Nothing has ever been piped from the transport stream into a sink of
    the facade. *)
Definition no_subscription (w : World) : Prop :=
  closures w = [] ∧ sinks w = [] ∧ pipes w = [] ∧
  List.filter is_pipe (log w) = [].

(** [body] has not been accessed yet. *)
Definition unasked (w : World) : Prop :=
  impl_body (impl w) = None ∧ promises w = [] ∧ queue w = [] ∧
  no_subscription w.

(** Body parsing was disabled before [body] was first accessed: either
    [body] is still unset, or it holds the promise of [getDisabledBody],
    whose rejection is scheduled or done. *)
Definition gate_closed (w : World) : Prop :=
  impl_getBody (impl w) = DisabledFactory raw_accessed ∧
  no_subscription w ∧
  (impl_body (impl w) = None ∧ promises w = [] ∧ queue w = [] ∨
   impl_body (impl w) = Some (BodyPromise 0) ∧
   (promises w = [Pending] ∧ queue w = [JobReject 0 raw_accessed] ∨
    promises w = [Rejected raw_accessed] ∧ queue w = [])).

(** What the memoization of the body rests on. *)
Definition collect_view (w : World) :=
  (impl_body (impl w), closures w, List.filter is_pipe (log w)).

(** At most one collecting function exists, and it has piped the request
    into a sink exactly when its [triggered] flag is set. *)
Definition collect_inv (w : World) : Prop :=
  (closures w ≠ [] → is_Some (impl_body (impl w))) ∧
  match closures w with
  | [] => List.filter is_pipe (log w) = []
  | [cl] =>
      if cl_triggered cl
      then length (List.filter is_pipe (log w)) = 1
      else List.filter is_pipe (log w) = []
  | _ => False
  end.

(** The value of the first header, in the order of [search], that the
    request carries. *)
Fixpoint first_present (hs : gmap string string) (search : list string)
    : option string :=
  match search with
  | [] => None
  | s :: rest =>
      match hs !! s with
      | Some v => Some v
      | None => first_present hs rest
      end
  end.

(** The candidate at which the loop of [hashIncoming] stops: the first
    one whose lower-case form names a property of the header object, a
    header of the request or an inherited property. *)
Fixpoint first_match (hs : gmap string string) (search : list string)
    : option string :=
  match search with
  | [] => None
  | s :: rest =>
      if js_in (toLowerCase s) hs then Some s
      else first_match hs rest
  end.

(** The candidate names that the constructor hands to [hashIncoming]. *)
Definition candidates (server : Server) : list string :=
  default default_requestIDHeaders (requestIDHeaders (opts server)).

(** What the stream has been asked to do for the facade. *)
Definition stream_view (w : World) :=
  (sinks w, pipes w, List.filter is_pipe (log w),
   List.filter is_write (log w)).

(** What decides, and records, the outcome of the body. *)
Definition outcome_view (w : World) :=
  (impl_body (impl w), promises w, queue w, closures w, pipes w,
   List.filter (settles 0) (log w), List.filter is_write (log w)).

(** [body] holds the collecting function, the only one there is, and its
    promise is the first of the heap. *)
Definition collecting (w : World) : Prop :=
  impl_body (impl w) = Some (BodyFn 0) ∧
  ∃ t, closures w = [{| cl_triggered := t; cl_promise := 0 |}].

(** The [write] handler run on each chunk of a list in turn. *)
Definition write_all (s : nat) (chunks : list (list Byte.byte)) (w : World)
    : World :=
  fold_left (fun w chunk => sink_write s chunk w) chunks w.

(** ** The transaction middleware

    [match.execute] is the function that the router installed, or the
    function that [db.transaction] returned for the arrow function
    [() => oldRunFunction()], which calls the function [execute] held
    before.  [db], the session module, is a collaborator. *)
Inductive Execute :=
| Installed (f : nat)
| InTransaction (old : Execute).

(** An action of a controller; a missing [noTransaction] property is
    falsy. *)
Record ControllerAction := {
  noTransaction : bool
}.

(** [controller] holds the properties of the controller object other
    than those it inherits from [Object.prototype]. *)
Record Match := {
  controller : gmap string ControllerAction;
  match_name : string;
  execute : Execute
}.

(** [match.execute = db.transaction(() => oldRunFunction())] *)
Definition in_transaction (mt : Match) : Match :=
  {| controller := controller mt; match_name := match_name mt;
     execute := InTransaction (execute mt) |}.

(** [processView(request, match, context)] of the middleware that
    [createTransactionMiddleware] returns.  The lookup
    [match.controller[match.name]] follows the prototype chain: for a
    name that the controller inherits from [Object.prototype] it yields
    a function (an object for [__proto__]) without a [noTransaction]
    property; for any other name that the controller does not have it
    yields [undefined], and reading [noTransaction] throws. *)
Definition processView (mt : Match) : Completion unit * Match :=
  match controller mt !! match_name mt with
  | Some action =>
      if noTransaction action then (Normal tt, mt)
      else (Normal tt, in_transaction mt)
  | None =>
      if bool_decide (match_name mt ∈ Object_prototype)
      then (Normal tt, in_transaction mt)
      else
        (Throws
           (TypeError "Cannot read property 'noTransaction' of undefined"),
         mt)
  end.

(** [processView] applied [n] times to the same match. *)
Fixpoint processView_times (n : nat) (mt : Match) : Match :=
  match n with
  | 0 => mt
  | S k => processView_times k (snd (processView mt))
  end.

(** The number of [db.transaction] wrappers around the function of the
    router. *)
Fixpoint transaction_depth (e : Execute) : nat :=
  match e with
  | Installed _ => 0
  | InTransaction old => S (transaction_depth old)
  end.

(** The function of the router at the core of an [execute]. *)
Fixpoint installed_function (e : Execute) : nat :=
  match e with
  | Installed f => f
  | InTransaction old => installed_function old
  end.

(** A concrete set of collaborators, on which the model can be run. *)
Module Sample.

Definition byte_of (n : nat) : Byte.byte :=
  match Byte.of_nat (n mod 256) with
  | Some b => b
  | None => Byte.x00
  end.

Definition syntax_error : JsError :=
  {| err_name := "SyntaxError";
     err_message := "Unexpected token in JSON";
     err_statusCode := None |}.

Definition platform : Platform :=
  {| sha1_base64 := fun s => "sha1(" +:+ s +:+ ")";
     uuid_rnds := fun n ii => byte_of (16 * n + ii);
     toString_utf8 := string_of_list_byte;
     JSON_parse := fun text =>
       if String.eqb text "{}" then inl (JObject [])
       else inr syntax_error;
     url_parse := fun s =>
       {| url_pathname := s; url_search := ""; url_query := [] |};
     accepts := fun r => {| accept_headers := headers r |} |}.

Definition module0 : ModuleState :=
  {| ID_SCRATCH_BUFFER := replicate 16 Byte.x00; uuid_calls := 0 |}.

Definition request (hs : gmap string string) : IncomingMessage :=
  {| headers := hs; rawHeaders := []; url := "/items?page=2";
     method := "POST"; httpVersion := "1.1" |}.

Definition server (external : bool) (names : option (list string))
    : Server :=
  {| opts := {| isExternal := external; requestIDHeaders := names;
                opts_maxBodySize := 1000 |} |}.

(** An internal-mode request with [request-id: abc]. *)
Definition world0 : World :=
  {| modstate := module0;
     req := request {["request-id" := "abc"]};
     pipes := [];
     impl := {| impl_id := Some "abc"; impl_url := None;
                impl_accept := None; impl_body := None;
                impl_getBody := CollectFactory;
                impl_maxBodySize := None |};
     promises := []; closures := []; sinks := []; queue := [];
     log := [] |}.


End Sample.

(** * Properties *)

Section Properties.

Context `{Platform}.

(** ** Identifier generation *)

Lemma base64_16 (bs : list Byte.byte) :
  length bs = 16 → ∃ a s, base64 bs = String a s.
Proof.
  destruct bs as [|a [|b [|c rest]]]; simpl; try discriminate; eauto.
Qed.

Lemma list_inserts_whole {A} (k l : list A) :
  length k = length l → list_inserts 0 k l = k.
Proof.
  intros Hlen. rewrite <- (app_nil_r k) at 1.
  now apply list_inserts_0_l.
Qed.

Lemma uuid_v4_buffer (m : ModuleState) :
  module_ok m →
  ID_SCRATCH_BUFFER (uuid_v4 m) = map (uuid_rnds (uuid_calls m)) (seq 0 16).
Proof.
  intros Hm. unfold uuid_v4; cbn [ID_SCRATCH_BUFFER].
  apply list_inserts_whole.
  rewrite length_map, length_seq. symmetry; exact Hm.
Qed.

Lemma uuid_v4_ok (m : ModuleState) : module_ok m → module_ok (uuid_v4 m).
Proof.
  unfold module_ok, uuid_v4; cbn [ID_SCRATCH_BUFFER].
  now rewrite length_inserts.
Qed.

Lemma next_id_truthy (m : ModuleState) : ∃ a s, next_id m = String a s.
Proof.
  apply base64_16. now rewrite length_map, length_seq.
Qed.

Lemma generateID_eq (m : ModuleState) :
  module_ok m → generateID m = (next_id m, uuid_v4 m).
Proof.
  intros Hm. unfold generateID, next_id. now rewrite uuid_v4_buffer.
Qed.

(** [getID] on a request whose id is unset. *)
Lemma getID_unset (w : World) :
  module_ok (modstate w) → truthy (impl_id (impl w)) = false →
  Impl_getID w =
    (next_id (modstate w),
     set_impl (set_id (Some (next_id (modstate w))) (impl w))
       (set_modstate (uuid_v4 (modstate w)) w)).
Proof.
  intros Hm Hid. unfold Impl_getID, next_id.
  rewrite uuid_v4_buffer by exact Hm.
  destruct (impl_id (impl w)) as [[|a s]|]; simpl in Hid;
    try discriminate; reflexivity.
Qed.

Lemma get_id_unset (w : World) :
  module_ok (modstate w) → truthy (impl_id (impl w)) = false →
  KnorkRequest_get PId w =
    (VString (next_id (modstate w)),
     set_impl (set_id (Some (next_id (modstate w))) (impl w))
       (set_modstate (uuid_v4 (modstate w)) w)).
Proof.
  intros Hm Hid. unfold KnorkRequest_get. now rewrite getID_unset.
Qed.

(** [getID] on a request whose id is set. *)
Lemma getID_set (w : World) (v : string) :
  impl_id (impl w) = Some v → v ≠ "" → Impl_getID w = (v, w).
Proof.
  intros Hid Hv. unfold Impl_getID. rewrite Hid.
  destruct v; [congruence | reflexivity].
Qed.

(** ** What the stream and the deferred callbacks leave untouched

    The handlers of the sink, the events of the stream and the deferred
    callbacks only write the promises, the sinks, the pipes and the
    queue, and only log events of the stream and of promises.  Any view
    of the world that ignores these is preserved. *)

Section Frame.

Context {A : Type} (view : World → A).

Hypothesis view_emit :
  ∀ e w, quiet_event e = true → view (emit e w) = view w.
Hypothesis view_set_promises : ∀ ps w, view (set_promises ps w) = view w.
Hypothesis view_set_sinks : ∀ ss w, view (set_sinks ss w) = view w.
Hypothesis view_set_pipes : ∀ ps w, view (set_pipes ps w) = view w.
Hypothesis view_set_queue : ∀ q w, view (set_queue q w) = view w.

Lemma frame_settle (p : nat) (s : PromiseState) (w : World) :
  view (settle p s w) = view w.
Proof.
  unfold settle. destruct (promises w !! p) as [[]|]; try reflexivity.
  apply view_set_promises.
Qed.

Lemma frame_resolve (p : nat) (v : Json) (w : World) :
  view (resolve p v w) = view w.
Proof.
  unfold resolve. rewrite frame_settle. now apply view_emit.
Qed.

Lemma frame_reject (p : nat) (e : JsError) (w : World) :
  view (reject p e w) = view w.
Proof.
  unfold reject. rewrite frame_settle. now apply view_emit.
Qed.

Lemma frame_unpipe (s : nat) (w : World) : view (unpipe s w) = view w.
Proof.
  unfold unpipe. rewrite view_emit by reflexivity. apply view_set_pipes.
Qed.

Lemma frame_fold {B} (f : World → B → World) (l : list B) :
  (∀ w x, view (f w x) = view w) →
  ∀ w, view (fold_left f l w) = view w.
Proof.
  intros Hf. induction l as [|x l IH]; intros w; simpl; [reflexivity|].
  now rewrite IH, Hf.
Qed.

Lemma frame_sink_write (s : nat) (chunk : list Byte.byte) (w : World) :
  view (sink_write s chunk w) = view w.
Proof.
  unfold sink_write. destruct (sinks w !! s) as [k|]; [|reflexivity].
  destruct (write_inert k); [reflexivity|].
  cbv zeta. destruct (js_lt _ _); [apply view_set_sinks|].
  now rewrite frame_reject, view_set_sinks, frame_unpipe, view_set_sinks.
Qed.

Lemma frame_source_data (chunk : list Byte.byte) (w : World) :
  view (source_data chunk w) = view w.
Proof.
  unfold source_data. apply frame_fold. intros w' s.
  destruct (bool_decide _); [|reflexivity].
  rewrite frame_sink_write. now apply view_emit.
Qed.

Lemma frame_source_end (w : World) : view (source_end w) = view w.
Proof.
  unfold source_end. apply frame_fold. intros w' s.
  destruct (bool_decide _); [|reflexivity].
  now apply view_emit.
Qed.

Lemma frame_run_queue (w : World) : view (run_queue w) = view w.
Proof.
  unfold run_queue.
  rewrite frame_fold; [apply view_set_queue|].
  intros w' [p v|p e]; simpl; [apply frame_resolve | apply frame_reject].
Qed.

End Frame.

Lemma filter_snoc_out (f : Event → bool) (l : list Event) (e : Event) :
  f e = false → List.filter f (l ++ [e]) = List.filter f l.
Proof.
  intros He. rewrite List.filter_app; simpl. rewrite He.
  apply app_nil_r.
Qed.

Lemma views_emit (e : Event) (w : World) :
  is_url_parse e = false → is_accepts e = false →
  views (emit e w) = views w.
Proof.
  intros Hu Ha. unfold views, id_view, url_view, accept_view, emit; simpl.
  now rewrite !filter_snoc_out.
Qed.

Lemma views_quiet (e : Event) (w : World) :
  quiet_event e = true → views (emit e w) = views w.
Proof. intros He. apply views_emit; now destruct e. Qed.

Lemma views_source_data (chunk : list Byte.byte) (w : World) :
  views (source_data chunk w) = views w.
Proof. now apply frame_source_data; [apply views_quiet|..]. Qed.

Lemma views_source_end (w : World) : views (source_end w) = views w.
Proof. now apply frame_source_end; [apply views_quiet|..]. Qed.

Lemma views_run_queue (w : World) : views (run_queue w) = views w.
Proof. now apply frame_run_queue; [apply views_quiet|..]. Qed.

Lemma views_getBody_closure (c : nat) (w : World) :
  views (snd (getBody_closure c w)) = views w.
Proof.
  unfold getBody_closure. destruct (closures w !! c) as [cl|]; [|reflexivity].
  destruct (cl_triggered cl); [reflexivity|].
  unfold collectBody; simpl. now rewrite views_emit.
Qed.

Lemma views_pipe_arrow (args : list Value) (w : World) :
  views (snd (pipe_arrow args w)) = views w.
Proof.
  unfold pipe_arrow, IncomingMessage_pipe; simpl.
  now rewrite views_emit.
Qed.

Lemma views_getBody (w : World) : views (snd (Impl_getBody w)) = views w.
Proof.
  unfold Impl_getBody. destruct (impl_body (impl w)); [reflexivity|].
  unfold call_getBody_factory.
  now destruct (impl_getBody (impl w)).
Qed.

Lemma views_call (f : Value) (args : list Value) (w : World) :
  views (snd (call f args w)) = views w.
Proof.
  destruct f; try reflexivity.
  - apply views_pipe_arrow.
  - apply views_getBody_closure.
Qed.

Ltac view_of L :=
  let Hv := fresh "Hv" in
  pose proof L as Hv; unfold views in Hv; congruence.

Lemma get_snd (prop : Property) (w : World) :
  snd (KnorkRequest_get prop w) =
  match prop with
  | PRaw => Impl_disableBody raw_accessed w
  | PId => snd (Impl_getID w)
  | PBody => snd (Impl_getBody w)
  | PUrlObject | PQuery => snd (Impl_getURL w)
  | PAccept => snd (Impl_getAccepts w)
  | _ => w
  end.
Proof.
  destruct prop; simpl; try reflexivity.
  - now destruct (Impl_getID w).
  - now destruct (Impl_getBody w).
  - now destruct (Impl_getURL w).
  - now destruct (Impl_getURL w).
  - now destruct (Impl_getAccepts w).
Qed.

Lemma step_get_snd (prop : Property) (w : World) :
  snd (step (Get prop) w) = snd (KnorkRequest_get prop w).
Proof.
  simpl. now destruct (KnorkRequest_get prop w).
Qed.

Lemma step_get_fst (prop : Property) (w : World) :
  fst (step (Get prop) w) = Normal (fst (KnorkRequest_get prop w)).
Proof.
  simpl. now destruct (KnorkRequest_get prop w).
Qed.

Lemma step_id_view (a : Action) (w : World) :
  a ≠ Get PId → id_view (snd (step a w)) = id_view w.
Proof.
  intros Ha. destruct a as [prop|f args|chunk| |];
    [rewrite step_get_snd, get_snd|simpl..].
  - destruct prop; try reflexivity; try congruence.
    + view_of (views_getBody w).
    + unfold Impl_getURL. now destruct (impl_url (impl w)).
    + unfold Impl_getURL. now destruct (impl_url (impl w)).
    + unfold Impl_getAccepts. now destruct (impl_accept (impl w)).
  - view_of (views_call f args w).
  - view_of (views_source_data chunk w).
  - view_of (views_source_end w).
  - view_of (views_run_queue w).
Qed.

Lemma step_url_view (a : Action) (w : World) :
  a ≠ Get PUrlObject → a ≠ Get PQuery →
  url_view (snd (step a w)) = url_view w.
Proof.
  intros Ha Hq. destruct a as [prop|f args|chunk| |];
    [rewrite step_get_snd, get_snd|simpl..].
  - destruct prop; try reflexivity; try congruence.
    + unfold Impl_getID. now destruct (impl_id (impl w)) as [[|]|].
    + view_of (views_getBody w).
    + unfold Impl_getAccepts, url_view.
      destruct (impl_accept (impl w)); simpl; [reflexivity|].
      now rewrite filter_snoc_out.
  - view_of (views_call f args w).
  - view_of (views_source_data chunk w).
  - view_of (views_source_end w).
  - view_of (views_run_queue w).
Qed.

Lemma step_accept_view (a : Action) (w : World) :
  a ≠ Get PAccept → accept_view (snd (step a w)) = accept_view w.
Proof.
  intros Ha. destruct a as [prop|f args|chunk| |];
    [rewrite step_get_snd, get_snd|simpl..].
  - destruct prop; try reflexivity; try congruence.
    + unfold Impl_getID. now destruct (impl_id (impl w)) as [[|]|].
    + view_of (views_getBody w).
    + unfold Impl_getURL, accept_view.
      destruct (impl_url (impl w)); simpl; [reflexivity|].
      now rewrite filter_snoc_out.
    + unfold Impl_getURL, accept_view.
      destruct (impl_url (impl w)); simpl; [reflexivity|].
      now rewrite filter_snoc_out.
  - view_of (views_call f args w).
  - view_of (views_source_data chunk w).
  - view_of (views_source_end w).
  - view_of (views_run_queue w).
Qed.

(** ** Memoized fields stay as they are once set *)

Lemma get_dec (a : Action) (prop : Property) : a = Get prop ∨ a ≠ Get prop.
Proof.
  destruct a as [q| | | |]; try (right; discriminate).
  destruct q, prop; (left; reflexivity) || (right; discriminate).
Qed.

Lemma id_kept (acts : list Action) (w : World) (v : string) :
  impl_id (impl w) = Some v → v ≠ "" →
  id_view (exec acts w) = id_view w.
Proof.
  intros Hid Hv. revert w Hid.
  induction acts as [|a acts IH]; intros w Hid; simpl; [reflexivity|].
  assert (Hstep : id_view (snd (step a w)) = id_view w).
  { destruct (get_dec a PId) as [->|Hne].
    - rewrite step_get_snd, get_snd. now rewrite (getID_set w v).
    - now apply step_id_view. }
  rewrite IH; [exact Hstep|].
  unfold id_view in Hstep. congruence.
Qed.



(** ** Each memoized computation runs at most once *)

Lemma exec_app (l1 l2 : list Action) (w : World) :
  exec (l1 ++ l2) w = exec l2 (exec l1 w).
Proof.
  revert w. induction l1 as [|a l1 IH]; intros w; simpl; [reflexivity|].
  apply IH.
Qed.

Lemma exec_preserves (P : World → Prop) :
  (∀ a w, P w → P (snd (step a w))) →
  ∀ acts w, P w → P (exec acts w).
Proof.
  intros Hstep acts. induction acts as [|a acts IH]; intros w Hw; simpl;
    [exact Hw|].
  apply IH, Hstep, Hw.
Qed.

Lemma append_dash_nonempty (a b : string) : a +:+ "-" +:+ b ≠ "".
Proof. destruct a; discriminate. Qed.

Lemma step_id_inv (c0 : nat) (a : Action) (w : World) :
  id_inv c0 w → id_inv c0 (snd (step a w)).
Proof.
  intros [Hm Hid]. destruct (get_dec a PId) as [->|Hne].
  - rewrite step_get_snd, get_snd.
    destruct (impl_id (impl w)) as [s|] eqn:Es.
    + destruct Hid as [Hs Hc]. rewrite (getID_set w s Es Hs); simpl.
      split; [exact Hm|]. now rewrite Es.
    + rewrite getID_unset; [|exact Hm|now rewrite Es]. simpl.
      split; [now apply uuid_v4_ok|].
      destruct (next_id_truthy (modstate w)) as (c & t & ->).
      split; [discriminate|simpl; lia].
  - pose proof (step_id_view a w Hne) as Hv. unfold id_view in Hv.
    injection Hv as Hi Hmod. unfold id_inv. now rewrite Hi, Hmod.
Qed.

Lemma step_url_inv (r : IncomingMessage) (a : Action) (w : World) :
  url_inv r w → url_inv r (snd (step a w)).
Proof.
  intros [Hr Hu].
  assert (Hget : url_inv r (snd (Impl_getURL w))).
  { unfold url_inv, Impl_getURL in *.
    destruct (impl_url (impl w)) eqn:E; simpl; [now rewrite E|].
    split; [exact Hr|]. split; [now rewrite Hr|].
    rewrite List.filter_app, Hu. reflexivity. }
  destruct (get_dec a PUrlObject) as [->|Hne].
  { now rewrite step_get_snd, get_snd. }
  destruct (get_dec a PQuery) as [->|Hnq].
  { now rewrite step_get_snd, get_snd. }
  pose proof (step_url_view a w Hne Hnq) as Hv. unfold url_view in Hv.
  injection Hv as Hi Hl Hq. unfold url_inv. now rewrite Hi, Hl, Hq.
Qed.

Lemma step_accept_inv (r : IncomingMessage) (a : Action) (w : World) :
  accept_inv r w → accept_inv r (snd (step a w)).
Proof.
  intros [Hr Hu].
  destruct (get_dec a PAccept) as [->|Hne].
  { rewrite step_get_snd, get_snd.
    unfold accept_inv, Impl_getAccepts in *.
    destruct (impl_accept (impl w)) eqn:E; simpl; [now rewrite E|].
    split; [exact Hr|]. split; [now rewrite Hr|].
    rewrite List.filter_app, Hu. reflexivity. }
  pose proof (step_accept_view a w Hne) as Hv. unfold accept_view in Hv.
  injection Hv as Hi Hl Hq. unfold accept_inv. now rewrite Hi, Hl, Hq.
Qed.

(** What the constructor establishes. *)
Lemma hashIncoming_inv (hs : gmap string string) (search : list string)
    (m : ModuleState) (v : option string) (m1 : ModuleState) :
  module_ok m → hashIncoming hs search m = (Normal v, m1) →
  module_ok m1 ∧
  match v with
  | Some s => s ≠ "" ∧ uuid_calls m1 = S (uuid_calls m)
  | None => m1 = m
  end.
Proof.
  intros Hm. unfold hashIncoming.
  destruct (_ =? _)%nat.
  - intros [= <- <-]. now split.
  - destruct (sha1_update_digest _) as [hash|e]; [|discriminate].
    rewrite generateID_eq by exact Hm. intros [= <- <-].
    split; [now apply uuid_v4_ok|].
    split; [apply append_dash_nonempty|reflexivity].
Qed.

Lemma or_null_inv (v : option string) :
  match or_null v with Some s => s ≠ "" | None => True end.
Proof. now destruct v as [[|a s]|]. Qed.

Lemma makeKnorkRequest_inv (r : IncomingMessage) (server : Server)
    (m : ModuleState) (w0 : World) :
  module_ok m → makeKnorkRequest r server m = Normal w0 →
  id_inv (uuid_calls m) w0 ∧ url_inv r w0 ∧ accept_inv r w0 ∧
  req w0 = r ∧ impl_body (impl w0) = None ∧
  impl_getBody (impl w0) = CollectFactory ∧
  impl_maxBodySize (impl w0) = None ∧
  pipes w0 = [] ∧ promises w0 = [] ∧ closures w0 = [] ∧ sinks w0 = [] ∧
  queue w0 = [] ∧ log w0 = [].
Proof.
  intros Hm. unfold makeKnorkRequest, Impl_constructor.
  destruct (isExternal (opts server)).
  - destruct (hashIncoming _ _ m) as [[v|e] m1] eqn:Eh; [|discriminate].
    intros [= <-]. apply hashIncoming_inv in Eh as [Hm1 Hv]; [|exact Hm].
    unfold id_inv, url_inv, accept_inv; simpl.
    repeat split; try reflexivity; try exact Hm1.
    destruct v as [s|]; [|now subst m1].
    destruct Hv as [Hs ->]. split; [exact Hs|lia].
  - intros [= <-]. unfold id_inv, url_inv, accept_inv; simpl.
    repeat split; try reflexivity; try exact Hm.
    pose proof (or_null_inv (headers r !! "request-id")) as Ho.
    destruct (or_null _); [split; [exact Ho|lia]|reflexivity].
Qed.






(** A memoized accessor called again, after any activity in between. *)
Lemma get_id_again (c0 : nat) (between : list Action) (w : World) :
  id_inv c0 w →
  let w3 := exec between (snd (KnorkRequest_get PId w)) in
  KnorkRequest_get PId w3 = (fst (KnorkRequest_get PId w), w3).
Proof.
  intros [Hm Hid]. simpl.
  assert (Hfirst : ∃ s, s ≠ "" ∧ fst (Impl_getID w) = s ∧
                        impl_id (impl (snd (Impl_getID w))) = Some s).
  { destruct (impl_id (impl w)) as [s|] eqn:Es.
    - destruct Hid as [Hs _]. exists s.
      now rewrite (getID_set w s Es Hs).
    - rewrite getID_unset; [|exact Hm|now rewrite Es]. simpl.
      exists (next_id (modstate w)). split; [|now split].
      destruct (next_id_truthy (modstate w)) as (c & t & ->).
      discriminate. }
  destruct Hfirst as (s & Hs & Hv & Hset).
  destruct (Impl_getID w) as [v1 w2]; simpl in *. subst v1.
  pose proof (id_kept between w2 s Hset Hs) as Hk. unfold id_view in Hk.
  injection Hk as Hi _. rewrite Hset in Hi.
  now rewrite (getID_set _ s Hi Hs).
Qed.



Lemma id_untouched (acts : list Action) (w : World) :
  Forall (fun a => a ≠ Get PId) acts → id_view (exec acts w) = id_view w.
Proof.
  intros Hacts. revert w.
  induction Hacts as [|a acts Ha _ IH]; intros w; simpl; [reflexivity|].
  rewrite IH. now apply step_id_view.
Qed.

Lemma reachable_inv (r : IncomingMessage) (server : Server)
    (m : ModuleState) (w0 : World) (acts : list Action) :
  module_ok m → makeKnorkRequest r server m = Normal w0 →
  id_inv (uuid_calls m) (exec acts w0) ∧ url_inv r (exec acts w0) ∧
  accept_inv r (exec acts w0).
Proof.
  intros Hm Hmk.
  destruct (makeKnorkRequest_inv r server m w0 Hm Hmk)
    as (Hid & Hurl & Hacc & _).
  split; [|split].
  - revert Hid. apply exec_preserves. intros a w. apply step_id_inv.
  - revert Hurl. apply exec_preserves. intros a w. apply step_url_inv.
  - revert Hacc. apply exec_preserves. intros a w. apply step_accept_inv.
Qed.










(** ** Correlation id in internal mode *)

Lemma internal_construct (r : IncomingMessage) (server : Server)
    (m : ModuleState) :
  isExternal (opts server) = false →
  makeKnorkRequest r server m =
    Normal {| modstate := m; req := r; pipes := [];
              impl := {| impl_id := or_null (headers r !! "request-id");
                         impl_url := None; impl_accept := None;
                         impl_body := None; impl_getBody := CollectFactory;
                         impl_maxBodySize := None |};
              promises := []; closures := []; sinks := []; queue := [];
              log := [] |}.
Proof.
  intros Hint. unfold makeKnorkRequest, Impl_constructor.
  now rewrite Hint.
Qed.

Lemma get_id_first (w : World) (before : list Action) :
  module_ok (modstate w) → impl_id (impl w) = None →
  Forall (fun a => a ≠ Get PId) before →
  fst (KnorkRequest_get PId (exec before w)) = VString (next_id (modstate w)).
Proof.
  intros Hm Hid Hb.
  pose proof (id_untouched before w Hb) as Hv. unfold id_view in Hv.
  injection Hv as Hi Hmod. simpl.
  rewrite getID_unset; rewrite ?Hi, ?Hmod, ?Hid; try reflexivity.
  exact Hm.
Qed.

(** C10.  In internal mode an empty [request-id] header is the same as
    no header: the constructor builds the same state, with the id unset,
    and the first [id] access returns a generated identifier, which is
    not the empty string. *)
Theorem empty_request_id_is_absent (r : IncomingMessage) (server : Server)
    (m : ModuleState) :
  module_ok m → isExternal (opts server) = false →
  headers r !! "request-id" = Some "" →
  ∃ w w',
    makeKnorkRequest r server m = Normal w ∧
    makeKnorkRequest (without_header "request-id" r) server m = Normal w' ∧
    impl w = impl w' ∧ modstate w = modstate w' ∧
    impl_id (impl w) = None ∧
    fst (KnorkRequest_get PId w) = VString (next_id m) ∧
    fst (KnorkRequest_get PId w') = VString (next_id m) ∧
    next_id m ≠ "" ∧
    impl_id (impl (snd (KnorkRequest_get PId w))) = Some (next_id m).
Proof.
  intros Hm Hint Hhdr.
  pose proof (internal_construct r server m Hint) as Hw.
  pose proof (internal_construct (without_header "request-id" r) server m
                Hint) as Hw'.
  cbn [headers without_header] in Hw'.
  rewrite lookup_delete_eq in Hw'. rewrite Hhdr in Hw.
  change (or_null (Some "")) with (@None string) in Hw.
  change (or_null None) with (@None string) in Hw'.
  eexists _, _. split; [exact Hw|]. split; [exact Hw'|].
  rewrite !get_id_unset by (try exact Hm; reflexivity).
  repeat split.
  destruct (next_id_truthy m) as (c & t & ->). discriminate.
Qed.

(** C7 (amended).  In internal mode the constructor reads the
    [request-id] header and nothing else: when that header is present and
    not empty, every [id] access returns its value verbatim and no
    identifier is generated, whatever candidate names are configured;
    otherwise the id is unset at construction, the first [id] access
    returns the base64 encoding of the sixteen bytes of a new [uuid.v4],
    and every later access returns that same identifier. *)
Theorem internal_id_from_request_id (r : IncomingMessage) (server : Server)
    (m : ModuleState) :
  module_ok m → isExternal (opts server) = false →
  ∃ w0,
    makeKnorkRequest r server m = Normal w0 ∧
    (∀ v acts,
       headers r !! "request-id" = Some v → v ≠ "" →
       KnorkRequest_get PId (exec acts w0) = (VString v, exec acts w0) ∧
       modstate (exec acts w0) = m) ∧
    (truthy (headers r !! "request-id") = false →
     impl_id (impl w0) = None ∧
     ∀ before between,
       Forall (fun a => a ≠ Get PId) before →
       let w1 := exec before w0 in
       let w3 := exec between (snd (KnorkRequest_get PId w1)) in
       fst (KnorkRequest_get PId w1) = VString (next_id m) ∧
       KnorkRequest_get PId w3 = (VString (next_id m), w3)).
Proof.
  intros Hm Hint. eexists. split; [now apply internal_construct|].
  set (w0 := {| modstate := m |}).
  assert (Hmk : makeKnorkRequest r server m = Normal w0)
    by now apply internal_construct.
  split.
  - intros v acts Hv Hne.
    assert (Hid : impl_id (impl w0) = Some v).
    { simpl. rewrite Hv. now destruct v. }
    pose proof (id_kept acts w0 v Hid Hne) as Hk. unfold id_view in Hk.
    rewrite Hid in Hk. injection Hk as Hi Hmod. split; [|exact Hmod].
    unfold KnorkRequest_get. now rewrite (getID_set _ v Hi Hne).
  - intros Hfalsy.
    assert (Hid : impl_id (impl w0) = None).
    { simpl. unfold or_null. now rewrite Hfalsy. }
    split; [exact Hid|]. intros before between Hb. cbv zeta.
    pose proof (get_id_first w0 before Hm Hid Hb) as Hfirst.
    change (modstate w0) with m in Hfirst.
    split; [exact Hfirst|].
    destruct (reachable_inv r server m w0 before Hm Hmk) as (Hid1 & _).
    rewrite (get_id_again (uuid_calls m) between _ Hid1).
    now rewrite Hfirst.
Qed.

(** ** The raw/pipe gate *)

Lemma body_view_get (prop : Property) (w : World) :
  prop ≠ PRaw → prop ≠ PBody →
  body_view (snd (KnorkRequest_get prop w)) = body_view w.
Proof.
  intros Hr Hb. rewrite get_snd.
  destruct prop; try reflexivity; try congruence.
  - unfold Impl_getID. now destruct (impl_id (impl w)) as [[|]|].
  - unfold Impl_getURL, body_view.
    destruct (impl_url (impl w)); simpl; [reflexivity|].
    now rewrite filter_snoc_out.
  - unfold Impl_getURL, body_view.
    destruct (impl_url (impl w)); simpl; [reflexivity|].
    now rewrite filter_snoc_out.
  - unfold Impl_getAccepts, body_view.
    destruct (impl_accept (impl w)); simpl; [reflexivity|].
    now rewrite filter_snoc_out.
Qed.

Lemma unasked_view (w w' : World) :
  body_view w' = body_view w → unasked w → unasked w'.
Proof.
  unfold body_view, unasked, no_subscription.
  intros [= -> _ _ -> -> -> -> -> ->]. tauto.
Qed.

Lemma gate_closed_view (w w' : World) :
  body_view w' = body_view w → gate_closed w → gate_closed w'.
Proof.
  unfold body_view, gate_closed, no_subscription.
  intros [= -> -> _ -> -> -> -> -> ->]. tauto.
Qed.

Lemma pipe_arrow_eq (args : list Value) (w : World) :
  pipe_arrow args w =
    (Throws (TypeError "Cannot read property 'on' of undefined"),
     emit (EvRawPipe [])
       (Impl_disableBody raw_accessed (Impl_disableBody raw_accessed w))).
Proof. reflexivity. Qed.

Lemma source_data_detached (chunk : list Byte.byte) (w : World) :
  pipes w = [] → source_data chunk w = w.
Proof. intros Hp. unfold source_data. now rewrite Hp. Qed.

Lemma source_end_detached (w : World) : pipes w = [] → source_end w = w.
Proof. intros Hp. unfold source_end. now rewrite Hp. Qed.

Lemma getBody_closure_dangling (c : nat) (w : World) :
  closures w = [] →
  getBody_closure c w = (Throws (TypeError "not a function"), w).
Proof. intros Hc. unfold getBody_closure. now rewrite Hc. Qed.

(** The events of the stream and a dangling call do nothing to a
    request that has no sink. *)
Lemma step_no_sink (a : Action) (w : World) :
  closures w = [] → pipes w = [] →
  match a with
  | Call (VBodyFn _) _ | SourceData _ | SourceEnd => snd (step a w) = w
  | _ => True
  end.
Proof.
  intros Hc Hp. destruct a as [prop|[] args|chunk| |]; try exact I; simpl.
  - now rewrite getBody_closure_dangling.
  - now apply source_data_detached.
  - now apply source_end_detached.
Qed.

Lemma step_unasked (a : Action) (w : World) :
  a ≠ Get PBody → unasked w → unasked (snd (step a w)).
Proof.
  intros Ha Hw.
  pose proof Hw as (Hb & Hp & Hq & Hc & Hs & Hpi & Hl).
  pose proof (step_no_sink a w Hc Hpi) as Hno.
  destruct a as [prop|f args|chunk| |]; try (now rewrite Hno).
  - rewrite step_get_snd.
    destruct (get_dec (Get prop) PRaw) as [[= ->]|Hr].
    + unfold unasked, no_subscription; simpl. tauto.
    + apply (unasked_view w); [|exact Hw].
      apply body_view_get; congruence.
  - destruct f; try exact Hw; try (now rewrite Hno).
    simpl. unfold unasked, no_subscription; simpl.
    rewrite filter_snoc_out by reflexivity. tauto.
  - simpl. unfold run_queue. rewrite Hq. simpl.
    unfold unasked, no_subscription; simpl. tauto.
Qed.

Lemma exec_unasked (acts : list Action) (w : World) :
  Forall (fun a => a ≠ Get PBody) acts → unasked w → unasked (exec acts w).
Proof.
  intros Hacts. revert w.
  induction Hacts as [|a acts Ha _ IH]; intros w Hw; simpl; [exact Hw|].
  apply IH. now apply step_unasked.
Qed.

Lemma disabling_closes (d : Action) (w : World) :
  disabling d → unasked w → gate_closed (snd (step d w)).
Proof.
  intros [->|[args ->]] (Hb & Hp & Hq & Hc & Hs & Hpi & Hl);
    unfold gate_closed, no_subscription; simpl.
  - tauto.
  - rewrite filter_snoc_out by reflexivity. tauto.
Qed.

Lemma get_body_gate_closed (w : World) :
  gate_closed w →
  fst (KnorkRequest_get PBody w) = VPromise 0 ∧
  gate_closed (snd (KnorkRequest_get PBody w)) ∧
  impl_body (impl (snd (KnorkRequest_get PBody w))) = Some (BodyPromise 0).
Proof.
  intros (Hf & (Hc & Hs & Hpi & Hl) & Hcases).
  unfold KnorkRequest_get, Impl_getBody, call_getBody_factory,
    getDisabledBody, new_promise.
  destruct Hcases as [(Hb & Hp & Hq)|(Hb & Hcases)]; rewrite Hb.
  - rewrite Hf. simpl. rewrite Hp. split; [reflexivity|].
    split; [|reflexivity].
    unfold gate_closed, no_subscription; simpl.
    rewrite Hq. repeat split; try assumption.
    right. split; [reflexivity|]. left. split; reflexivity.
  - simpl. split; [reflexivity|]. split; [|exact Hb].
    unfold gate_closed, no_subscription. tauto.
Qed.

Lemma run_queue_gate_closed (w : World) :
  gate_closed w →
  gate_closed (run_queue w) ∧
  (impl_body (impl w) = Some (BodyPromise 0) →
   promises (run_queue w) = [Rejected raw_accessed]).
Proof.
  intros (Hf & (Hc & Hs & Hpi & Hl) & Hcases).
  unfold run_queue, gate_closed, no_subscription.
  destruct Hcases as [(Hb & Hp & Hq)|(Hb & [(Hp & Hq)|(Hp & Hq)])];
    rewrite Hq; simpl.
  - rewrite Hb. split; [|discriminate]. tauto.
  - unfold reject, settle; simpl. rewrite Hp; simpl.
    rewrite filter_snoc_out by reflexivity. split; [|reflexivity].
    repeat split; try assumption. right. split; [exact Hb|].
    right. split; reflexivity.
  - split; [|intros _; exact Hp]. repeat split; try assumption.
    right. split; [exact Hb|]. right. split; [exact Hp|reflexivity].
Qed.

Lemma step_gate_closed (a : Action) (w : World) :
  gate_closed w → gate_closed (snd (step a w)).
Proof.
  intros Hw.
  pose proof Hw as (Hf & (Hc & Hs & Hpi & Hl) & Hcases).
  pose proof (step_no_sink a w Hc Hpi) as Hno.
  destruct a as [prop|f args|chunk| |]; try (now rewrite Hno).
  - rewrite step_get_snd.
    destruct (get_dec (Get prop) PRaw) as [[= ->]|Hr].
    { unfold gate_closed, no_subscription; simpl. tauto. }
    destruct (get_dec (Get prop) PBody) as [[= ->]|Hb].
    { now apply (get_body_gate_closed w). }
    apply (gate_closed_view w); [|exact Hw].
    apply body_view_get; congruence.
  - destruct f; try exact Hw; try (now rewrite Hno).
    simpl. unfold gate_closed, no_subscription; simpl.
    rewrite filter_snoc_out by reflexivity. tauto.
  - now apply run_queue_gate_closed.
Qed.

Lemma makeKnorkRequest_shape (r : IncomingMessage) (server : Server)
    (m : ModuleState) (w0 : World) :
  makeKnorkRequest r server m = Normal w0 →
  ∃ m1 v,
    w0 = {| modstate := m1; req := r; pipes := [];
            impl := {| impl_id := v; impl_url := None; impl_accept := None;
                       impl_body := None; impl_getBody := CollectFactory;
                       impl_maxBodySize := None |};
            promises := []; closures := []; sinks := []; queue := [];
            log := [] |}.
Proof.
  unfold makeKnorkRequest.
  destruct (Impl_constructor r server m) as [[i|e] m1] eqn:Ec;
    [|discriminate].
  intros [= <-]. unfold Impl_constructor in Ec.
  destruct (if isExternal (opts server) then _ else _) as [[v|e] m2];
    [|discriminate].
  injection Ec as <- <-. now exists m2, v.
Qed.

Lemma makeKnorkRequest_unasked (r : IncomingMessage) (server : Server)
    (m : ModuleState) (w0 : World) :
  makeKnorkRequest r server m = Normal w0 → unasked w0.
Proof.
  intros Hmk. apply makeKnorkRequest_shape in Hmk as (m1 & v & ->).
  unfold unasked, no_subscription; simpl. tauto.
Qed.

(** C4.  When [raw] is read, or the function read from [pipe] is
    called, before the first [body] access, every later [body] access
    returns (it does not throw) one and the same promise; that promise is
    pending or already rejected with the error of [raw], and is rejected
    with it once the deferred callbacks have run; the transport stream
    has never been piped into a sink. *)
Theorem body_after_raw_rejects (r : IncomingMessage) (server : Server)
    (m : ModuleState) (w0 : World) (pre post : list Action) (d : Action) :
  makeKnorkRequest r server m = Normal w0 →
  Forall (fun a => a ≠ Get PBody) pre → disabling d →
  let w := exec (pre ++ d :: post) w0 in
  let w' := snd (step (Get PBody) w) in
  fst (step (Get PBody) w) = Normal (VPromise 0) ∧
  (promises w' !! 0 = Some Pending ∨
   promises w' !! 0 = Some (Rejected raw_accessed)) ∧
  promises (exec [Turn] w') !! 0 = Some (Rejected raw_accessed) ∧
  no_subscription w'.
Proof.
  intros Hmk Hpre Hd w w'.
  assert (Hw : gate_closed w).
  { unfold w. rewrite exec_app. cbn [exec].
    apply (exec_preserves gate_closed); [apply step_gate_closed|].
    apply disabling_closes; [exact Hd|].
    apply exec_unasked; [exact Hpre|].
    now apply makeKnorkRequest_unasked in Hmk. }
  destruct (get_body_gate_closed w Hw) as (Hv & Hw' & Hb).
  rewrite <- step_get_snd in Hw', Hb. fold w' in Hw', Hb.
  split; [now rewrite step_get_fst, Hv|].
  pose proof Hw' as (_ & Hns & Hcases).
  destruct (run_queue_gate_closed w' Hw') as [_ Hrun].
  split; [|split; [|exact Hns]].
  - destruct Hcases as [(Hnone & _)|(_ & [(Hp & _)|(Hp & _)])];
      [congruence| |]; rewrite Hp; simpl; tauto.
  - simpl. now rewrite (Hrun Hb).
Qed.

(** C1 (amended).  Once [body] has been accessed, reading [raw] or
    calling the function read from [pipe] leaves the body as it is: the
    promises (a pending one stays pending), the deferred callbacks, the
    collecting function, the sink and its attachment to the stream are
    unchanged, and [body] keeps returning the memoized value.  Only the
    factory that a first [body] access would have called is replaced. *)
Theorem disabling_leaves_started_body (w : World) (d : Action) :
  disabling d → is_Some (impl_body (impl w)) →
  let w' := snd (step d w) in
  promises w' = promises w ∧ queue w' = queue w ∧
  closures w' = closures w ∧ sinks w' = sinks w ∧ pipes w' = pipes w ∧
  impl_body (impl w') = impl_body (impl w) ∧
  impl_getBody (impl w') = DisabledFactory raw_accessed ∧
  KnorkRequest_get PBody w' = (fst (KnorkRequest_get PBody w), w').
Proof.
  intros Hd [b Hb]. cbv zeta.
  assert (Hbody : ∀ x, impl_body (impl x) = Some b →
                       KnorkRequest_get PBody x = (value_of_body b, x)).
  { intros x Hx. unfold KnorkRequest_get, Impl_getBody. now rewrite Hx. }
  rewrite (Hbody w Hb).
  destruct Hd as [->|[args ->]]; simpl; repeat split; now apply Hbody.
Qed.

(** ** The collection pipeline *)

Lemma exec_detached (chunks : list (list Byte.byte)) (w : World) :
  pipes w = [] → exec (deliver chunks) w = run_queue w.
Proof.
  intros Hp. unfold deliver. revert w Hp.
  induction chunks as [|c chunks IH]; intros w Hp; simpl.
  - now rewrite source_end_detached.
  - rewrite source_data_detached by exact Hp. now apply IH.
Qed.

Lemma exec_cons (a : Action) (acts : list Action) (w : World) :
  exec (a :: acts) w = exec acts (snd (step a w)).
Proof. reflexivity. Qed.

(** A request as the constructor leaves it, whose body is asked for:
    the getter returns the collecting function, and calling it pipes the
    request into a new sink. *)
Lemma ask_body (m1 : ModuleState) (r : IncomingMessage) (v : option string) :
  let w0 :=
    {| modstate := m1; req := r; pipes := [];
       impl := {| impl_id := v; impl_url := None; impl_accept := None;
                  impl_body := None; impl_getBody := CollectFactory;
                  impl_maxBodySize := None |};
       promises := []; closures := []; sinks := []; queue := [];
       log := [] |} in
  fst (KnorkRequest_get PBody w0) = VBodyFn 0 ∧
  fst (call (VBodyFn 0) [] (snd (KnorkRequest_get PBody w0)))
  = Normal (VPromise 0) ∧
  snd (call (VBodyFn 0) [] (snd (KnorkRequest_get PBody w0)))
  = {| modstate := m1; req := r; pipes := [0];
       impl := {| impl_id := v; impl_url := None; impl_accept := None;
                  impl_body := Some (BodyFn 0);
                  impl_getBody := CollectFactory;
                  impl_maxBodySize := None |};
       promises := [Pending];
       closures := [{| cl_triggered := true; cl_promise := 0 |}];
       sinks := [{| bytesWritten := 0; acc := []; write_inert := false;
                    sink_promise := 0 |}];
       queue := []; log := [EvPipe 0] |}.
Proof. repeat split. Qed.

(** The first chunk ends the collection: [bytesWritten < undefined] is
    false. *)
Lemma first_write (m1 : ModuleState) (r : IncomingMessage)
    (v : option string) (c : list Byte.byte) :
  source_data c
    {| modstate := m1; req := r; pipes := [0];
       impl := {| impl_id := v; impl_url := None; impl_accept := None;
                  impl_body := Some (BodyFn 0);
                  impl_getBody := CollectFactory;
                  impl_maxBodySize := None |};
       promises := [Pending];
       closures := [{| cl_triggered := true; cl_promise := 0 |}];
       sinks := [{| bytesWritten := 0; acc := []; write_inert := false;
                    sink_promise := 0 |}];
       queue := []; log := [EvPipe 0] |}
  = {| modstate := m1; req := r; pipes := [];
       impl := {| impl_id := v; impl_url := None; impl_accept := None;
                  impl_body := Some (BodyFn 0);
                  impl_getBody := CollectFactory;
                  impl_maxBodySize := None |};
       promises := [Rejected payload_too_large];
       closures := [{| cl_triggered := true; cl_promise := 0 |}];
       sinks := [{| bytesWritten := Z.of_nat (length c); acc := [c];
                    write_inert := true; sink_promise := 0 |}];
       queue := [];
       log := [EvPipe 0; EvWrite 0 (length c); EvUnpipe 0;
               EvReject 0 payload_too_large] |}.
Proof. vm_compute. reflexivity. Qed.

Lemma collect_first_chunk (m1 : ModuleState) (r : IncomingMessage)
    (v : option string) (c : list Byte.byte)
    (rest : list (list Byte.byte)) :
  let w0 :=
    {| modstate := m1; req := r; pipes := [];
       impl := {| impl_id := v; impl_url := None; impl_accept := None;
                  impl_body := None; impl_getBody := CollectFactory;
                  impl_maxBodySize := None |};
       promises := []; closures := []; sinks := []; queue := [];
       log := [] |} in
  exec (deliver (c :: rest))
    (snd (call (VBodyFn 0) [] (snd (KnorkRequest_get PBody w0))))
  = {| modstate := m1; req := r; pipes := [];
       impl := {| impl_id := v; impl_url := None; impl_accept := None;
                  impl_body := Some (BodyFn 0);
                  impl_getBody := CollectFactory;
                  impl_maxBodySize := None |};
       promises := [Rejected payload_too_large];
       closures := [{| cl_triggered := true; cl_promise := 0 |}];
       sinks := [{| bytesWritten := Z.of_nat (length c); acc := [c];
                    write_inert := true; sink_promise := 0 |}];
       queue := [];
       log := [EvPipe 0; EvWrite 0 (length c); EvUnpipe 0;
               EvReject 0 payload_too_large] |}.
Proof.
  intros w0. destruct (ask_body m1 r v) as (_ & _ & Hw2). fold w0 in Hw2.
  rewrite Hw2.
  change (deliver (c :: rest)) with (SourceData c :: deliver rest).
  rewrite exec_cons.
  change (snd (step (SourceData c) ?w)) with (source_data c w).
  rewrite first_write. now rewrite exec_detached.
Qed.

(** ** The body is collected once *)

Lemma collect_view_quiet (e : Event) (w : World) :
  quiet_event e = true → collect_view (emit e w) = collect_view w.
Proof.
  intros He. unfold collect_view, emit; simpl.
  rewrite filter_snoc_out; [reflexivity|now destruct e].
Qed.

Lemma step_collect_view (a : Action) (w : World) :
  a ≠ Get PBody → (∀ c args, a ≠ Call (VBodyFn c) args) →
  collect_view (snd (step a w)) = collect_view w.
Proof.
  intros Hb Hc. destruct a as [prop|f args|chunk| |].
  - rewrite step_get_snd.
    destruct (get_dec (Get prop) PRaw) as [[= ->]|Hr]; [reflexivity|].
    assert (Hv : body_view (snd (KnorkRequest_get prop w)) = body_view w)
      by (apply body_view_get; congruence).
    unfold body_view in Hv. unfold collect_view. congruence.
  - destruct f; try reflexivity.
    + simpl. now rewrite collect_view_quiet.
    + now destruct (Hc c args).
  - now apply (frame_source_data collect_view); [apply collect_view_quiet|..].
  - now apply (frame_source_end collect_view); [apply collect_view_quiet|..].
  - now apply (frame_run_queue collect_view); [apply collect_view_quiet|..].
Qed.

Lemma collect_inv_view (w w' : World) :
  collect_view w' = collect_view w → collect_inv w → collect_inv w'.
Proof.
  unfold collect_view, collect_inv. intros [= -> -> ->]. tauto.
Qed.

Lemma step_collect_inv (a : Action) (w : World) :
  collect_inv w → collect_inv (snd (step a w)).
Proof.
  intros Hw. pose proof Hw as [Hset Hcl].
  destruct (get_dec a PBody) as [->|Hb].
  { rewrite step_get_snd, get_snd. unfold Impl_getBody.
    destruct (impl_body (impl w)) as [b|] eqn:Eb; [exact Hw|].
    assert (Hnil : closures w = []).
    { destruct (closures w) as [|cl cls]; [reflexivity|].
      destruct Hset as [b Hb]; [discriminate|congruence]. }
    rewrite Hnil in Hcl.
    unfold call_getBody_factory, getBody, getDisabledBody, new_promise.
    destruct (impl_getBody (impl w)); unfold collect_inv; simpl;
      rewrite Hnil; simpl; split; eauto; congruence. }
  assert (Hframe : (∀ c args, a ≠ Call (VBodyFn c) args) →
                   collect_inv (snd (step a w))).
  { intros Hc. apply (collect_inv_view w); [|exact Hw].
    now apply step_collect_view. }
  destruct a as [prop|f args|chunk| |]; try (apply Hframe; discriminate).
  destruct f; try (apply Hframe; discriminate).
  simpl. unfold getBody_closure.
  destruct (closures w) as [|cl [|cl' cls]] eqn:Ecl; [| |contradiction].
  - simpl. unfold collect_inv. now rewrite Ecl.
  - destruct c as [|c]; simpl; [|unfold collect_inv; now rewrite Ecl].
    destruct (cl_triggered cl) eqn:Et; simpl.
    + unfold collect_inv. rewrite Ecl, Et. now split.
    + unfold collect_inv; simpl.
      split; [intros _; apply Hset; discriminate|].
      rewrite List.filter_app, Hcl. reflexivity.
Qed.

(** However a request is used, the transport stream is piped into a
    sink of the facade at most once. *)
Lemma body_collected_once (r : IncomingMessage) (server : Server)
    (m : ModuleState) (w0 : World) (acts : list Action) :
  makeKnorkRequest r server m = Normal w0 →
  (length (List.filter is_pipe (log (exec acts w0))) ≤ 1)%nat.
Proof.
  intros Hmk.
  assert (Hinv : collect_inv (exec acts w0)).
  { apply (exec_preserves collect_inv); [apply step_collect_inv|].
    apply makeKnorkRequest_shape in Hmk as (m1 & v & ->).
    unfold collect_inv; simpl. now split. }
  destruct Hinv as [_ Hcl].
  destruct (closures (exec acts w0)) as [|cl [|cl' cls]]; [| |contradiction].
  - rewrite Hcl. simpl. lia.
  - destruct (cl_triggered cl); rewrite Hcl; simpl; lia.
Qed.

Lemma body_kept (acts : list Action) (w : World) (b : BodyValue) :
  impl_body (impl w) = Some b → impl_body (impl (exec acts w)) = Some b.
Proof.
  revert w. induction acts as [|a acts IH]; intros w Hb; simpl;
    [exact Hb|].
  apply IH. destruct a as [prop|f args|chunk| |].
  - rewrite step_get_snd.
    destruct (get_dec (Get prop) PRaw) as [[= ->]|Hr]; [exact Hb|].
    destruct (get_dec (Get prop) PBody) as [[= ->]|Hnb].
    + rewrite get_snd. unfold Impl_getBody. now rewrite Hb.
    + assert (Hv : body_view (snd (KnorkRequest_get prop w)) = body_view w)
        by (apply body_view_get; congruence).
      unfold body_view in Hv. congruence.
  - destruct f; try exact Hb; simpl.
    unfold getBody_closure. destruct (closures w !! c) as [cl|]; [|exact Hb].
    now destruct (cl_triggered cl).
  - simpl. now rewrite (frame_source_data impl).
  - simpl. now rewrite (frame_source_end impl).
  - simpl. now rewrite (frame_run_queue impl).
Qed.

(** [body] accessed again, after any activity in between, returns what
    it returned first and changes nothing. *)
Lemma body_again (between : list Action) (w : World) :
  let w3 := exec between (snd (KnorkRequest_get PBody w)) in
  KnorkRequest_get PBody w3 = (fst (KnorkRequest_get PBody w), w3).
Proof.
  cbv zeta. unfold KnorkRequest_get.
  destruct (Impl_getBody w) as [b w1] eqn:Eb. simpl.
  assert (Hset : impl_body (impl w1) = Some b).
  { unfold Impl_getBody in Eb.
    destruct (impl_body (impl w)) as [b0|] eqn:E0.
    - now injection Eb as <- <-.
    - destruct (call_getBody_factory w). now injection Eb as <- <-. }
  unfold Impl_getBody. now rewrite (body_kept between w1 b Hset).
Qed.

(** ** Correlation id in external mode *)

Lemma js_in_own {A : Type} (name : string) (o : gmap string A) :
  name ∉ Object_prototype → js_in name o = bool_decide (is_Some (o !! name)).
Proof.
  intros Hn. unfold js_in.
  rewrite (bool_decide_eq_false_2 _ Hn). apply orb_false_r.
Qed.

Lemma hashIncoming_scan_spec (hs : gmap string string)
    (search : list string) (i : nat) :
  Forall (fun s => toLowerCase s = s ∧ s ∉ Object_prototype) search →
  match first_present hs search with
  | None => hashIncoming_scan hs search i = i + length search
  | Some v =>
      ∃ j key,
        hashIncoming_scan hs search i = i + j ∧ j < length search ∧
        search !! j = Some key ∧ hs !! key = Some v
  end.
Proof.
  intros Hlow. revert i.
  induction Hlow as [|s rest [Hs Hp] _ IH]; intros i; simpl; [lia|].
  rewrite Hs, js_in_own by exact Hp. destruct (hs !! s) as [v|] eqn:Ev.
  - rewrite bool_decide_eq_true_2 by eauto.
    exists 0, s. repeat split; [lia|lia|exact Ev].
  - rewrite bool_decide_eq_false_2 by (intros [? ?]; discriminate).
    specialize (IH (S i)). destruct (first_present hs rest) as [v|].
    + destruct IH as (j & key & Hi & Hj & Hk & Hv).
      exists (S j), key. repeat split; [lia|lia|exact Hk|exact Hv].
    + lia.
Qed.

(** With candidate names written in lower case, none of them the name
    of a property of [Object.prototype], [hashIncoming] returns the
    digest of the first header present, a hyphen and a new identifier,
    and [null] when no candidate is present. *)
Lemma hashIncoming_lowercase (hs : gmap string string)
    (search : list string) (m : ModuleState) :
  Forall (fun s => toLowerCase s = s ∧ s ∉ Object_prototype) search →
  module_ok m →
  hashIncoming hs search m =
    match first_present hs search with
    | Some v =>
        (Normal (Some (sha1_base64 v +:+ "-" +:+ next_id m)), uuid_v4 m)
    | None => (Normal None, m)
    end.
Proof.
  intros Hlow Hm. unfold hashIncoming.
  pose proof (hashIncoming_scan_spec hs search 0 Hlow) as Hscan.
  destruct (first_present hs search) as [v|].
  - destruct Hscan as (j & key & -> & Hj & Hk & Hv).
    change (0 + j) with j.
    destruct (Nat.eqb_spec j (length search)) as [Heq|_]; [lia|].
    rewrite Hk. cbn [mbind option_bind]. rewrite Hv.
    cbn [sha1_update_digest]. now rewrite generateID_eq.
  - rewrite Hscan. change (0 + length search) with (length search).
    now rewrite Nat.eqb_refl.
Qed.

(** ** What the facade hands out *)

(** Reading [pipe] without calling what it returns changes nothing. *)
Lemma pipe_getter_alone (w : World) :
  KnorkRequest_get PPipe w = (VPipeFn, w).
Proof. reflexivity. Qed.

(** On the enabled path [body] is the collecting function, to be called
    for the promise; on the disabled path it is the promise itself, and
    calling it throws. *)
Lemma body_value_not_callable (p : nat) (args : list Value) (w : World) :
  call (VPromise p) args w = (Throws (TypeError "not a function"), w).
Proof. reflexivity. Qed.

(** ** Defects *)

(** C6.  An external-mode request carrying [request-id: abc], with the
    candidate name configured as [Request-ID]: the loop of [hashIncoming]
    finds the header through the lower-cased name, the value is then
    looked up under the name as configured, and hashing [undefined]
    throws.  No request is built. *)
Theorem external_id_mixed_case_candidate (m : ModuleState) :
  hashIncoming_scan {["request-id" := "abc"]} ["Request-ID"] 0 = 0 ∧
  makeKnorkRequest (Sample.request {["request-id" := "abc"]})
    (Sample.server true (Some ["Request-ID"])) m
  = Throws (TypeError "Data must be a string or a buffer").
Proof. split; vm_compute; reflexivity. Qed.

(** C8.  [kreq.pipe(dest)]: body parsing is disabled, then the [pipe]
    of the transport request is applied to the [arguments] of the getter,
    which are empty; the destination is not passed on. *)
Theorem pipe_drops_destination (w : World) (d : nat) :
  let w' := snd (KnorkRequest_pipe [VDest d] w) in
  log w' = (log w ++ [EvRawPipe []])%list ∧
  impl_getBody (impl w') = DisabledFactory raw_accessed ∧
  fst (KnorkRequest_pipe [VDest d] w)
  = Throws (TypeError "Cannot read property 'on' of undefined") ∧
  fst (IncomingMessage_pipe [VDest d] w) = Normal (VDest d).
Proof. repeat split. Qed.

(** * Further properties of the code *)

(** ** [hashIncoming] without its index *)

Lemma hashIncoming_scan_first_match (hs : gmap string string)
    (search pre : list string) :
  match first_match hs search with
  | None =>
      hashIncoming_scan hs search (length pre) = length pre + length search
  | Some s =>
      hashIncoming_scan hs search (length pre) < length pre + length search ∧
      (pre ++ search)%list !! hashIncoming_scan hs search (length pre)
      = Some s
  end.
Proof.
  revert pre. induction search as [|s rest IH]; intros pre; simpl; [lia|].
  destruct (js_in (toLowerCase s) hs).
  - split; [lia|]. now rewrite list_lookup_middle.
  - specialize (IH (pre ++ [s])%list). rewrite length_app in IH.
    simpl in IH.
    rewrite <- app_assoc in IH. simpl in IH.
    replace (length pre + 1) with (S (length pre)) in IH by lia.
    destruct (first_match hs rest); [|lia].
    destruct IH as [Hlt Hlook]. split; [lia|exact Hlook].
Qed.

(** The loop and the lookup of [hashIncoming], as one case analysis. *)
Lemma hashIncoming_first_match (hs : gmap string string)
    (search : list string) (m : ModuleState) :
  hashIncoming hs search m =
    match first_match hs search with
    | None => (Normal None, m)
    | Some s =>
        match hs !! s with
        | None =>
            (Throws (TypeError "Data must be a string or a buffer"), m)
        | Some v =>
            (Normal (Some (sha1_base64 v +:+ "-" +:+ fst (generateID m))),
             snd (generateID m))
        end
    end.
Proof.
  unfold hashIncoming.
  pose proof (hashIncoming_scan_first_match hs search []) as Hscan.
  cbn [length app] in Hscan. change (0 + length search) with (length search)
    in Hscan.
  destruct (first_match hs search) as [s|].
  - destruct Hscan as [Hlt Hlook].
    destruct (Nat.eqb_spec (hashIncoming_scan hs search 0) (length search))
      as [Heq|_]; [lia|].
    rewrite Hlook. cbn [mbind option_bind].
    destruct (hs !! s) as [v|]; cbn [sha1_update_digest]; [|reflexivity].
    now destruct (generateID m).
  - rewrite Hscan. now rewrite Nat.eqb_refl.
Qed.

Lemma first_match_lowercase (hs : gmap string string)
    (search : list string) :
  Forall (fun s => toLowerCase s = s ∧ s ∉ Object_prototype) search →
  match first_match hs search with
  | Some s => hs !! s = first_present hs search ∧ is_Some (hs !! s)
  | None => first_present hs search = None
  end.
Proof.
  induction 1 as [|s rest [Hs Hp] _ IH]; simpl; [reflexivity|].
  rewrite Hs, js_in_own by exact Hp. destruct (hs !! s) as [v|] eqn:Ev.
  - rewrite bool_decide_eq_true_2 by eauto. rewrite Ev. eauto.
  - rewrite bool_decide_eq_false_2 by (intros [? ?]; discriminate).
    exact IH.
Qed.

(** X1.  External mode, candidate names written in lower case, none of
    them the name of a property of [Object.prototype] (for such a name,
    [constructor] say, the test [in] holds on every request).  The first
    candidate, in the configured order, that the request carries decides
    the id: the constructor draws one [uuid.v4] and sets the id to the
    digest of that header's value (an empty value included), a hyphen and
    the generated identifier; every [id] access, after any use of the
    request, returns it and draws nothing more.  When the request carries
    no candidate, the id is unset at construction, nothing is drawn, and
    the first [id] access generates it. *)
Theorem external_id_derivation (r : IncomingMessage) (server : Server)
    (m : ModuleState) :
  module_ok m → isExternal (opts server) = true →
  Forall (fun s => toLowerCase s = s ∧ s ∉ Object_prototype)
    (candidates server) →
  ∃ w0,
    makeKnorkRequest r server m = Normal w0 ∧
    match first_present (headers r) (candidates server) with
    | Some v =>
        modstate w0 = uuid_v4 m ∧
        ∀ acts,
          KnorkRequest_get PId (exec acts w0)
          = (VString (sha1_base64 v +:+ "-" +:+ next_id m), exec acts w0) ∧
          modstate (exec acts w0) = uuid_v4 m
    | None =>
        impl_id (impl w0) = None ∧ modstate w0 = m ∧
        fst (KnorkRequest_get PId w0) = VString (next_id m)
    end.
Proof.
  intros Hm Hext Hlow.
  unfold makeKnorkRequest, Impl_constructor. rewrite Hext.
  fold (candidates server).
  rewrite hashIncoming_first_match, generateID_eq by exact Hm.
  pose proof (first_match_lowercase (headers r) (candidates server) Hlow)
    as Hfm.
  destruct (first_match (headers r) (candidates server)) as [s|].
  - destruct Hfm as [Hv [v Hs]]. rewrite <- Hv, Hs. cbn [fst snd].
    eexists. split; [reflexivity|]. split; [reflexivity|].
    intros acts.
    set (w0 := {| modstate := uuid_v4 m |}).
    assert (Hid : impl_id (impl w0)
                  = Some (sha1_base64 v +:+ "-" +:+ next_id m)) by reflexivity.
    pose proof (id_kept acts w0 _ Hid (append_dash_nonempty _ _)) as Hk.
    unfold id_view in Hk. rewrite Hid in Hk. injection Hk as Hi Hmod.
    split; [|exact Hmod]. unfold KnorkRequest_get.
    now rewrite (getID_set _ _ Hi (append_dash_nonempty _ _)).
  - rewrite Hfm. eexists. split; [reflexivity|].
    split; [reflexivity|]. split; [reflexivity|].
    now rewrite get_id_unset.
Qed.

(** X2.  Building a request throws in one situation only: external
    mode, and the first candidate whose lower-case form names a property
    of the header object (a header of the request, or a property that the
    object inherits from [Object.prototype], such as [constructor]) is not
    itself, as configured, the name of a header of the request.  The
    module state is then as it was: no identifier has been drawn. *)
Theorem construction_throws_iff (r : IncomingMessage) (server : Server)
    (m : ModuleState) :
  ((∃ e, makeKnorkRequest r server m = Throws e) ↔
   isExternal (opts server) = true ∧
   ∃ s, first_match (headers r) (candidates server) = Some s ∧
        headers r !! s = None) ∧
  (∀ e m1, Impl_constructor r server m = (Throws e, m1) → m1 = m).
Proof.
  unfold makeKnorkRequest, Impl_constructor. fold (candidates server).
  destruct (isExternal (opts server)).
  - rewrite hashIncoming_first_match.
    destruct (first_match (headers r) (candidates server)) as [s|].
    + destruct (headers r !! s) as [v|] eqn:Ev.
      * split; [|discriminate]. split.
        -- intros [e He]. discriminate.
        -- intros [_ (s' & [= <-] & Hs')]. congruence.
      * split; [|now intros e m1 [= _ <-]]. split; eauto.
    + split; [|discriminate]. split.
      * intros [e He]. discriminate.
      * intros [_ (s' & Hs' & _)]. discriminate.
  - split; [|discriminate]. split.
    + intros [e He]. discriminate.
    + intros [Hfalse _]. discriminate.
Qed.

(** ** The encoding of identifiers *)

Lemma b64_char_inj (a b : N) :
  (a < 64)%N → (b < 64)%N → b64_char a = b64_char b → a = b.
Proof.
  intros Ha Hb Hab.
  assert (Hall : forallb (fun x => forallb (fun y =>
            implb (Ascii.eqb (b64_char (N.of_nat x)) (b64_char (N.of_nat y)))
                  (Nat.eqb x y)) (seq 0 64)) (seq 0 64) = true)
    by (vm_compute; reflexivity).
  rewrite forallb_forall in Hall.
  specialize (Hall (N.to_nat a)). rewrite in_seq in Hall.
  specialize (Hall ltac:(lia)). rewrite forallb_forall in Hall.
  specialize (Hall (N.to_nat b)). rewrite in_seq in Hall.
  specialize (Hall ltac:(lia)). rewrite !N2Nat.id, Hab in Hall.
  rewrite Ascii.eqb_refl in Hall. simpl in Hall.
  apply Nat.eqb_eq in Hall. lia.
Qed.

Lemma byte_bound (x : Byte.byte) : (Byte.to_N x < 256)%N.
Proof. pose proof (Byte.to_N_bounded x). lia. Qed.

Lemma to_N_inj (x y : Byte.byte) : Byte.to_N x = Byte.to_N y → x = y.
Proof.
  intros Hxy. pose proof (Byte.of_to_N x) as Hx.
  rewrite Hxy, Byte.of_to_N in Hx. congruence.
Qed.

Lemma sextets_inj (n n' : N) :
  (n < 16777216)%N → (n' < 16777216)%N →
  (n / 262144 = n' / 262144)%N →
  ((n / 4096) mod 64 = (n' / 4096) mod 64)%N →
  ((n / 64) mod 64 = (n' / 64) mod 64)%N →
  (n mod 64 = n' mod 64)%N → n = n'.
Proof.
  intros. zify. Z.to_euclidean_division_equations. lia.
Qed.

Lemma triple_inj (a b c a' b' c' : Byte.byte) :
  let n := (Byte.to_N a * 65536 + Byte.to_N b * 256 + Byte.to_N c)%N in
  let n' := (Byte.to_N a' * 65536 + Byte.to_N b' * 256 + Byte.to_N c')%N in
  b64_char (n / 262144) = b64_char (n' / 262144) →
  b64_char ((n / 4096) mod 64) = b64_char ((n' / 4096) mod 64) →
  b64_char ((n / 64) mod 64) = b64_char ((n' / 64) mod 64) →
  b64_char (n mod 64) = b64_char (n' mod 64) →
  a = a' ∧ b = b' ∧ c = c'.
Proof.
  intros n n' H1 H2 H3 H4.
  pose proof (byte_bound a). pose proof (byte_bound b).
  pose proof (byte_bound c). pose proof (byte_bound a').
  pose proof (byte_bound b'). pose proof (byte_bound c').
  assert (Hn : (n < 16777216)%N) by (unfold n; lia).
  assert (Hn' : (n' < 16777216)%N) by (unfold n'; lia).
  apply b64_char_inj in H1;
    [|apply N.Div0.div_lt_upper_bound; lia..].
  apply b64_char_inj in H2; [|apply N.mod_lt; lia..].
  apply b64_char_inj in H3; [|apply N.mod_lt; lia..].
  apply b64_char_inj in H4; [|apply N.mod_lt; lia..].
  assert (Heq : n = n') by now apply sextets_inj.
  unfold n, n' in Heq.
  repeat split; apply to_N_inj; lia.
Qed.

Lemma single_inj (a a' : Byte.byte) :
  b64_char (Byte.to_N a / 4) = b64_char (Byte.to_N a' / 4) →
  b64_char ((Byte.to_N a mod 4) * 16) = b64_char ((Byte.to_N a' mod 4) * 16) →
  a = a'.
Proof.
  intros H1 H2.
  pose proof (byte_bound a). pose proof (byte_bound a').
  apply b64_char_inj in H1;
    [|apply N.Div0.div_lt_upper_bound; lia..].
  assert (Hm : (Byte.to_N a mod 4 < 4)%N) by (apply N.mod_lt; lia).
  assert (Hm' : (Byte.to_N a' mod 4 < 4)%N) by (apply N.mod_lt; lia).
  apply b64_char_inj in H2; [|lia..].
  apply to_N_inj.
  rewrite (N.div_mod' (Byte.to_N a) 4), (N.div_mod' (Byte.to_N a') 4). lia.
Qed.

Lemma base64_triple_step (a b c a' b' c' : Byte.byte)
    (r r' : list Byte.byte) :
  base64 (a :: b :: c :: r) = base64 (a' :: b' :: c' :: r') →
  a = a' ∧ b = b' ∧ c = c' ∧ base64 r = base64 r'.
Proof.
  cbn [base64]. intros [= H1 H2 H3 H4 Hr].
  destruct (triple_inj a b c a' b' c' H1 H2 H3 H4) as (-> & -> & ->).
  now repeat split.
Qed.

Lemma base64_16_inj (l l' : list Byte.byte) :
  length l = 16 → length l' = 16 → base64 l = base64 l' → l = l'.
Proof.
  intros Hl Hl' Heq.
  do 17 (destruct l as [|? l]; [discriminate Hl || idtac|]); try discriminate.
  do 17 (destruct l' as [|? l']; [discriminate Hl' || idtac|]);
    try discriminate.
  clear Hl Hl'.
  do 5 (apply base64_triple_step in Heq as (-> & -> & -> & Heq)).
  cbn [base64] in Heq. injection Heq as H1 H2.
  now rewrite (single_inj _ _ H1 H2).
Qed.

Lemma base64_16_shape (l : list Byte.byte) :
  length l = 16 →
  String.length (base64 l) = 24 ∧ substring 22 2 (base64 l) = "==" ∧
  ∀ i c, i < 22 → String.get i (base64 l) = Some c →
         ∃ n, (n < 64)%N ∧ c = b64_char n.
Proof.
  intros Hl.
  do 17 (destruct l as [|? l]; [discriminate Hl || idtac|]); try discriminate.
  clear Hl. split; [reflexivity|]. split; [reflexivity|].
  intros i c Hi Hget.
  repeat match goal with
  | x : Byte.byte |- _ =>
      lazymatch goal with
      | _ : (Byte.to_N x < 256)%N |- _ => fail
      | _ => pose proof (byte_bound x)
      end
  end.
  assert (Hm : ∀ x, (x mod 4 < 4)%N) by (intros; apply N.mod_lt; lia).
  cbn [base64] in Hget.
  do 22 (destruct i as [|i];
    [cbn [String.get] in Hget; injection Hget as <-; eexists;
     split; [|reflexivity];
     first [ apply N.mod_lt; lia
           | apply N.Div0.div_lt_upper_bound; lia
           | match goal with
             | |- (?x mod 4 * 16 < 64)%N => specialize (Hm x); lia
             end ]|]).
  lia.
Qed.

(** X3.  An identifier generated by [id] is twenty-four characters
    long: twenty-two characters of the base64 alphabet followed by
    [==]. *)
Theorem generated_id_format (w : World) :
  module_ok (modstate w) → truthy (impl_id (impl w)) = false →
  ∃ id,
    fst (KnorkRequest_get PId w) = VString id ∧
    String.length id = 24 ∧ substring 22 2 id = "==" ∧
    ∀ i c, i < 22 → String.get i id = Some c →
           ∃ n, (n < 64)%N ∧ c = b64_char n.
Proof.
  intros Hm Hid. rewrite get_id_unset by assumption.
  exists (next_id (modstate w)). split; [reflexivity|].
  apply base64_16_shape. now rewrite length_map, length_seq.
Qed.

(** X4.  Two generated identifiers are equal exactly when [uuid.v4]
    wrote the same sixteen bytes for both: the base64 encoding loses
    nothing, and what the scratch buffer held before does not matter. *)
Theorem generated_ids_equal_iff (m m' : ModuleState) :
  module_ok m → module_ok m' →
  fst (generateID m) = fst (generateID m') ↔
  ∀ ii, ii < 16 → uuid_rnds (uuid_calls m) ii = uuid_rnds (uuid_calls m') ii.
Proof.
  intros Hm Hm'. rewrite !generateID_eq by assumption. cbn [fst].
  unfold next_id. split.
  - intros Heq. apply base64_16_inj in Heq;
      [|now rewrite length_map, length_seq..].
    cbn [map seq] in Heq.
    injection Heq as E0 E1 E2 E3 E4 E5 E6 E7 E8 E9 E10 E11 E12 E13 E14 E15.
    intros ii Hii.
    do 16 (destruct ii as [|ii]; [assumption|]). lia.
  - intros Hall. f_equal. apply map_ext_in. intros ii Hin.
    apply in_seq in Hin. apply Hall. lia.
Qed.

(** X5.  Two requests built one after the other share the scratch
    buffer.  When both ids are generated, the first is the encoding of
    one [uuid.v4] call and the second of the next call: nothing of the
    first identifier, still in the buffer, shows in the second. *)
Theorem successive_requests_ids (r1 r2 : IncomingMessage)
    (s1 s2 : Server) (m : ModuleState) :
  module_ok m →
  isExternal (opts s1) = false → isExternal (opts s2) = false →
  truthy (headers r1 !! "request-id") = false →
  truthy (headers r2 !! "request-id") = false →
  ∃ w1 w2,
    makeKnorkRequest r1 s1 m = Normal w1 ∧
    makeKnorkRequest r2 s2 (modstate (snd (KnorkRequest_get PId w1)))
    = Normal w2 ∧
    fst (KnorkRequest_get PId w1)
    = VString (base64 (map (uuid_rnds (uuid_calls m)) (seq 0 16))) ∧
    ID_SCRATCH_BUFFER (modstate (snd (KnorkRequest_get PId w1)))
    = map (uuid_rnds (uuid_calls m)) (seq 0 16) ∧
    fst (KnorkRequest_get PId w2)
    = VString (base64 (map (uuid_rnds (S (uuid_calls m))) (seq 0 16))).
Proof.
  intros Hm Hi1 Hi2 Hh1 Hh2.
  rewrite (internal_construct r1 s1 m Hi1).
  unfold or_null. rewrite Hh1.
  eexists. eexists. split; [reflexivity|].
  rewrite get_id_unset by (try exact Hm; reflexivity).
  cbn [snd fst modstate set_impl set_modstate].
  rewrite (internal_construct r2 s2 _ Hi2).
  unfold or_null. rewrite Hh2.
  split; [reflexivity|]. split; [reflexivity|].
  split; [now apply uuid_v4_buffer|].
  rewrite get_id_unset by (try (now apply uuid_v4_ok); reflexivity).
  reflexivity.
Qed.

(** ** Folds over the sinks and the queue *)

Lemma fold_left_preserves {B} (P : World → Prop) (f : World → B → World)
    (l : list B) :
  (∀ w x, P w → P (f w x)) → ∀ w, P w → P (fold_left f l w).
Proof.
  intros Hf. induction l as [|x l IH]; intros w Hw; simpl; [exact Hw|].
  apply IH, Hf, Hw.
Qed.

(** ** The gate *)

Lemma step_factory (a : Action) (w : World) :
  impl_getBody (impl (snd (step a w))) = impl_getBody (impl w) ∨
  disabling a ∧
  impl_getBody (impl (snd (step a w))) = DisabledFactory raw_accessed.
Proof.
  destruct a as [prop|f args|chunk| |].
  - rewrite step_get_snd.
    destruct (get_dec (Get prop) PRaw) as [[= ->]|Hr].
    { right. split; [now left|reflexivity]. }
    left. destruct (get_dec (Get prop) PBody) as [[= ->]|Hb].
    + rewrite get_snd. unfold Impl_getBody.
      destruct (impl_body (impl w)); [reflexivity|].
      unfold call_getBody_factory.
      destruct (impl_getBody (impl w)) eqn:Ef; simpl; now rewrite Ef.
    + assert (Hv : body_view (snd (KnorkRequest_get prop w)) = body_view w)
        by (apply body_view_get; congruence).
      unfold body_view in Hv. congruence.
  - destruct f; try (now left).
    + right. split; [right; now exists args|reflexivity].
    + left. simpl. unfold getBody_closure.
      destruct (closures w !! c) as [cl|]; [|reflexivity].
      now destruct (cl_triggered cl).
  - left. simpl. now rewrite (frame_source_data impl).
  - left. simpl. now rewrite (frame_source_end impl).
  - left. simpl. now rewrite (frame_run_queue impl).
Qed.

(** X8.  Only a read of [raw] or a call of the function read from
    [pipe] changes the factory behind [body], and they set it to the
    disabled one: nothing re-enables body parsing, and nothing else (a
    stream event, a rejection, another accessor) disables it. *)
Theorem gate_moves_one_way (w : World) (acts : list Action) :
  impl_getBody (impl (exec acts w)) = impl_getBody (impl w) ∨
  Exists disabling acts ∧
  impl_getBody (impl (exec acts w)) = DisabledFactory raw_accessed.
Proof.
  revert w. induction acts as [|a acts IH]; intros w; simpl; [now left|].
  destruct (IH (snd (step a w))) as [Hsame|[Hex Hdis]].
  - destruct (step_factory a w) as [Hstep|[Hd Hstep]].
    + left. congruence.
    + right. split; [now constructor|congruence].
  - right. split; [now apply Exists_cons_tl|exact Hdis].
Qed.

(** ** Collection starts with the call *)

Lemma stream_view_get (prop : Property) (w : World) :
  stream_view (snd (KnorkRequest_get prop w)) = stream_view w.
Proof.
  rewrite get_snd. destruct prop; try reflexivity.
  - unfold Impl_getID. now destruct (impl_id (impl w)) as [[|]|].
  - unfold Impl_getBody. destruct (impl_body (impl w)); [reflexivity|].
    unfold call_getBody_factory. now destruct (impl_getBody (impl w)).
  - unfold Impl_getURL, stream_view.
    destruct (impl_url (impl w)); simpl; [reflexivity|].
    now rewrite !filter_snoc_out.
  - unfold Impl_getURL, stream_view.
    destruct (impl_url (impl w)); simpl; [reflexivity|].
    now rewrite !filter_snoc_out.
  - unfold Impl_getAccepts, stream_view.
    destruct (impl_accept (impl w)); simpl; [reflexivity|].
    now rewrite !filter_snoc_out.
Qed.

Lemma stream_view_run_queue (w : World) :
  stream_view (run_queue w) = stream_view w.
Proof.
  unfold run_queue. rewrite (frame_fold stream_view); [reflexivity|].
  intros x [p v|p e]; simpl; unfold resolve, reject, settle; simpl;
    destruct (promises x !! p) as [[]|]; unfold stream_view; simpl;
    now rewrite !filter_snoc_out.
Qed.

(** X9.  Reading [body] does not start the collection.  As long as the
    function it returns has not been called, the request is never piped
    into a sink, no sink exists, and no chunk of the stream is handed to
    the facade, whatever else happens. *)
Theorem no_collection_without_call (r : IncomingMessage) (server : Server)
    (m : ModuleState) (w0 : World) (acts : list Action) :
  makeKnorkRequest r server m = Normal w0 →
  Forall (fun a => ∀ c args, a ≠ Call (VBodyFn c) args) acts →
  stream_view (exec acts w0) = ([], [], [], []).
Proof.
  intros Hmk Hacts.
  apply makeKnorkRequest_shape in Hmk as (m1 & v & ->).
  set (w0 := {| modstate := m1 |}).
  assert (H0 : stream_view w0 = ([], [], [], [])) by reflexivity.
  clearbody w0. revert w0 H0.
  induction Hacts as [|a acts Ha _ IH]; intros w0 H0; simpl; [exact H0|].
  apply IH. rewrite <- H0.
  destruct a as [prop|f args|chunk| |].
  - rewrite step_get_snd. apply stream_view_get.
  - destruct f; try reflexivity.
    + simpl. unfold stream_view; simpl. now rewrite !filter_snoc_out.
    + now destruct (Ha c args).
  - simpl. rewrite source_data_detached; [reflexivity|].
    unfold stream_view in H0. congruence.
  - simpl. rewrite source_end_detached; [reflexivity|].
    unfold stream_view in H0. congruence.
  - simpl. apply stream_view_run_queue.
Qed.

(** ** The first chunk decides *)

Lemma outcome_view_get (prop : Property) (w : World) :
  prop ≠ PBody →
  outcome_view (snd (KnorkRequest_get prop w)) = outcome_view w.
Proof.
  intros Hb. rewrite get_snd. destruct prop; try reflexivity;
    try congruence.
  - unfold Impl_getID. now destruct (impl_id (impl w)) as [[|]|].
  - unfold Impl_getURL, outcome_view.
    destruct (impl_url (impl w)); simpl; [reflexivity|].
    now rewrite !filter_snoc_out.
  - unfold Impl_getURL, outcome_view.
    destruct (impl_url (impl w)); simpl; [reflexivity|].
    now rewrite !filter_snoc_out.
  - unfold Impl_getAccepts, outcome_view.
    destruct (impl_accept (impl w)); simpl; [reflexivity|].
    now rewrite !filter_snoc_out.
Qed.

Lemma step_outcome_view (a : Action) (w : World) (b : BodyValue)
    (ps : list PromiseState) (ev1 ev2 : list Event) :
  outcome_view w =
    (Some b, ps, [], [{| cl_triggered := true; cl_promise := 0 |}], [],
     ev1, ev2) →
  outcome_view (snd (step a w)) = outcome_view w.
Proof.
  intros Hv. unfold outcome_view in Hv.
  injection Hv as Hb Hp Hq Hc Hpi H1 H2.
  destruct a as [prop|f args|chunk| |].
  - rewrite step_get_snd.
    destruct (get_dec (Get prop) PBody) as [[= ->]|Hnb].
    + rewrite get_snd. unfold Impl_getBody. now rewrite Hb.
    + apply outcome_view_get. congruence.
  - destruct f; try reflexivity; simpl.
    + unfold outcome_view; simpl. now rewrite !filter_snoc_out.
    + unfold getBody_closure. rewrite Hc. now destruct c.
  - simpl. now rewrite source_data_detached.
  - simpl. now rewrite source_end_detached.
  - simpl. unfold run_queue. rewrite Hq. simpl.
    unfold outcome_view; simpl. now rewrite Hq.
Qed.

(** X10.  On a request as built, once the collecting function has been
    called and a first chunk has arrived, the outcome is fixed for good:
    whatever follows (more chunks, the end of the stream, turns, [raw],
    [pipe], more calls), the promise is the one rejected with the 413
    error, it was settled by that single rejection, that chunk is the
    only one the stream handed over, and the sink stays unpiped. *)
Theorem first_chunk_decides (r : IncomingMessage) (server : Server)
    (m : ModuleState) (w0 : World) (c : list Byte.byte)
    (acts : list Action) :
  makeKnorkRequest r server m = Normal w0 →
  let w :=
    exec (Get PBody :: Call (VBodyFn 0) [] :: SourceData c :: acts) w0 in
  promises w = [Rejected payload_too_large] ∧
  List.filter (settles 0) (log w) = [EvReject 0 payload_too_large] ∧
  List.filter is_write (log w) = [EvWrite 0 (length c)] ∧
  pipes w = [].
Proof.
  intros Hmk. apply makeKnorkRequest_shape in Hmk as (m1 & v & ->).
  cbv zeta. rewrite !exec_cons, step_get_snd.
  destruct (ask_body m1 r v) as (_ & _ & Hw2).
  change (snd (step (Call (VBodyFn 0) []) ?x))
    with (snd (call (VBodyFn 0) [] x)).
  cbv zeta in Hw2. rewrite Hw2.
  change (snd (step (SourceData c) ?x)) with (source_data c x).
  rewrite first_write.
  match goal with |- context [exec acts ?x] => set (w3 := x) end.
  assert (Hinv : outcome_view (exec acts w3) = outcome_view w3).
  { apply (exec_preserves (fun x => outcome_view x = outcome_view w3));
      [|reflexivity].
    intros a x Hx. rewrite <- Hx.
    apply (step_outcome_view a x (BodyFn 0) [Rejected payload_too_large]
             [EvReject 0 payload_too_large] [EvWrite 0 (length c)]).
    rewrite Hx. reflexivity. }
  unfold outcome_view in Hinv. injection Hinv as _ Hp _ _ Hpi H1 H2.
  rewrite Hp, Hpi, H1, H2. now repeat split.
Qed.

(** ** One collecting function, one promise *)

Lemma step_collecting (a : Action) (w : World) :
  collecting w → collecting (snd (step a w)).
Proof.
  intros [Hb [t Hc]]. split; [exact (body_kept [a] w _ Hb)|].
  destruct (get_dec a PBody) as [->|Hnb].
  { rewrite step_get_snd, get_snd. unfold Impl_getBody. rewrite Hb. eauto. }
  assert (Hframe : (∀ c args, a ≠ Call (VBodyFn c) args) →
                   ∃ t0, closures (snd (step a w))
                         = [{| cl_triggered := t0; cl_promise := 0 |}]).
  { intros Hcall. pose proof (step_collect_view a w Hnb Hcall) as Hv.
    unfold collect_view in Hv. injection Hv as _ Hcl _. rewrite Hcl. eauto. }
  destruct a as [prop|f args|chunk| |]; try (apply Hframe; discriminate).
  destruct f; try (apply Hframe; discriminate).
  simpl. unfold getBody_closure. rewrite Hc.
  destruct c as [|c]; simpl; [|eauto].
  destruct t; simpl; eauto.
Qed.

Lemma step_enabled (a : Action) (w : World) :
  unasked w → impl_getBody (impl w) = CollectFactory → ¬ disabling a →
  (unasked (snd (step a w)) ∧
   impl_getBody (impl (snd (step a w))) = CollectFactory) ∨
  collecting (snd (step a w)).
Proof.
  intros Hw Hf Hd. destruct (get_dec a PBody) as [->|Hnb].
  - right. destruct Hw as (Hb & Hp & Hq & Hc & _).
    rewrite step_get_snd, get_snd.
    unfold Impl_getBody, call_getBody_factory, getBody, new_promise.
    rewrite Hb, Hf. simpl. rewrite Hp, Hc. split; [reflexivity|].
    now exists false.
  - left. split; [now apply step_unasked|].
    destruct (step_factory a w) as [->|[Hda _]]; [exact Hf|contradiction].
Qed.

Lemma exec_enabled (pre : list Action) (w : World) :
  unasked w → impl_getBody (impl w) = CollectFactory →
  Forall (fun a => ¬ disabling a) pre →
  collecting (snd (step (Get PBody) (exec pre w))).
Proof.
  intros Hw Hf Hpre. revert w Hw Hf.
  induction Hpre as [|a pre Ha _ IH]; intros w Hw Hf; simpl exec.
  - destruct (step_enabled (Get PBody) w Hw Hf) as [[Hu _]|Hc].
    + intros [[=]|[args [=]]].
    + exfalso. destruct Hu as (Hb & _).
      rewrite step_get_snd, get_snd in Hb. unfold Impl_getBody in Hb.
      destruct (impl_body (impl w)) as [b|] eqn:Eb.
      * simpl in Hb. congruence.
      * destruct (call_getBody_factory w). discriminate.
    + exact Hc.
  - destruct (step_enabled a w Hw Hf Ha) as [[Hu Hfa]|Hc].
    + now apply IH.
    + apply step_collecting.
      apply (exec_preserves collecting); [|exact Hc].
      intros a' w'. apply step_collecting.
Qed.

(** X11.  While body parsing has not been disabled, the first [body]
    access yields the collecting function, and from then on, whatever
    happens to the request (disabling included), [body] returns that same
    function and changes nothing, every call of it returns the same
    promise, and after any call the request has been piped into a sink
    exactly once. *)
Theorem one_function_one_promise (r : IncomingMessage) (server : Server)
    (m : ModuleState) (w0 : World) (pre acts : list Action) :
  makeKnorkRequest r server m = Normal w0 →
  Forall (fun a => ¬ disabling a) pre →
  let w := exec (pre ++ Get PBody :: acts) w0 in
  KnorkRequest_get PBody w = (VBodyFn 0, w) ∧
  fst (call (VBodyFn 0) [] w) = Normal (VPromise 0) ∧
  length (List.filter is_pipe (log (snd (call (VBodyFn 0) [] w)))) = 1.
Proof.
  intros Hmk Hpre w.
  assert (Hcol : collecting w).
  { unfold w. rewrite exec_app, exec_cons.
    apply (exec_preserves collecting);
      [intros a' w'; apply step_collecting|].
    apply exec_enabled; [|now apply makeKnorkRequest_shape in Hmk
                               as (m1 & v & ->)|exact Hpre].
    now apply makeKnorkRequest_unasked in Hmk. }
  assert (Hinv : collect_inv (snd (step (Call (VBodyFn 0) []) w))).
  { apply step_collect_inv. unfold w.
    apply (exec_preserves collect_inv); [apply step_collect_inv|].
    apply makeKnorkRequest_shape in Hmk as (m1 & v & ->).
    unfold collect_inv; simpl. now split. }
  destruct Hcol as [Hb [t Hc]].
  split; [unfold KnorkRequest_get, Impl_getBody; now rewrite Hb|].
  simpl in Hinv. unfold call, getBody_closure in *. rewrite Hc in *.
  simpl in *. destruct t; simpl in *; split; try reflexivity.
  - destruct Hinv as [_ Hlen]. rewrite Hc in Hlen. exact Hlen.
  - destruct Hinv as [_ Hlen]. exact Hlen.
Qed.

(** ** The write handler when the count is not under the ceiling *)

Lemma sink_write_inert (s : nat) (chunk : list Byte.byte) (w : World)
    (k : Sink) :
  sinks w !! s = Some k → write_inert k = true → sink_write s chunk w = w.
Proof. intros Hs Hi. unfold sink_write. now rewrite Hs, Hi. Qed.

(** X13.  The [write] handler on the chunk with which the count stops
    being under [impl.maxBodySize] (always, when it is [undefined]): the
    sink is unpiped, then the pending promise is rejected with the 413
    error, and the handler is out of use, so that running it on any
    further chunks changes nothing: the promise is rejected once. *)
Theorem write_handler_at_ceiling (s : nat) (c : list Byte.byte)
    (later : list (list Byte.byte)) (w : World) (k : Sink) :
  sinks w !! s = Some k → write_inert k = false →
  js_lt (bytesWritten k + Z.of_nat (length c)) (impl_maxBodySize (impl w))
  = false →
  promises w !! sink_promise k = Some Pending →
  let w1 := sink_write s c w in
  promises w1 !! sink_promise k = Some (Rejected payload_too_large) ∧
  (s ∉ pipes w1) ∧
  log w1 = (log w ++ [EvUnpipe s;
                      EvReject (sink_promise k) payload_too_large])%list ∧
  write_all s later w1 = w1.
Proof.
  intros Hs Hi Hlt Hp. cbv zeta.
  assert (Hlen : s < length (sinks w)) by (eapply lookup_lt_Some; eauto).
  assert (Hw1 : sink_write s c w =
    set_promises (<[sink_promise k := Rejected payload_too_large]> (promises w))
      (emit (EvReject (sink_promise k) payload_too_large)
         (set_sinks
            (<[s := {| bytesWritten := bytesWritten k + Z.of_nat (length c);
                       acc := acc k ++ [c]; write_inert := true;
                       sink_promise := sink_promise k |}]>
               (<[s := {| bytesWritten :=
                            bytesWritten k + Z.of_nat (length c);
                          acc := acc k ++ [c]; write_inert := false;
                          sink_promise := sink_promise k |}]> (sinks w)))
            (unpipe s
               (set_sinks
                  (<[s := {| bytesWritten :=
                               bytesWritten k + Z.of_nat (length c);
                             acc := acc k ++ [c]; write_inert := false;
                             sink_promise := sink_promise k |}]> (sinks w))
                  w))))).
  { unfold sink_write. rewrite Hs, Hi. cbv zeta.
    cbn [impl set_sinks bytesWritten]. rewrite Hlt.
    unfold reject, settle. cbn [promises emit set_sinks unpipe set_pipes
                                sink_promise].
    now rewrite Hp. }
  rewrite Hw1. split; [|split; [|split]].
  - simpl. apply list_lookup_insert_eq. eapply lookup_lt_Some; eauto.
  - simpl. intros Hin. apply list_elem_of_filter in Hin as [Hne _].
    now apply Hne.
  - simpl. now rewrite <- app_assoc.
  - unfold write_all.
    apply (fold_left_preserves (fun x => x = _)); [|reflexivity].
    intros x chunk ->.
    eapply sink_write_inert;
      [simpl; rewrite list_insert_insert_eq;
       now apply list_lookup_insert_eq|reflexivity].
Qed.

(** ** A body without any chunk *)

Lemma step_waiting (a : Action) (w : World) (ev2 : list Event) :
  (∀ c, a ≠ SourceData c) →
  outcome_view w =
    (Some (BodyFn 0), [Pending], [],
     [{| cl_triggered := true; cl_promise := 0 |}], [0], [], ev2) →
  outcome_view (snd (step a w)) = outcome_view w.
Proof.
  intros Hd Hv. unfold outcome_view in Hv.
  injection Hv as Hb Hp Hq Hc Hpi H1 H2.
  destruct a as [prop|f args|chunk| |].
  - rewrite step_get_snd.
    destruct (get_dec (Get prop) PBody) as [[= ->]|Hnb].
    + rewrite get_snd. unfold Impl_getBody. now rewrite Hb.
    + apply outcome_view_get. congruence.
  - destruct f; try reflexivity; simpl.
    + unfold outcome_view; simpl. now rewrite !filter_snoc_out.
    + unfold getBody_closure. rewrite Hc. now destruct c.
  - now destruct (Hd chunk).
  - simpl. unfold source_end. rewrite Hpi. cbn [fold_left].
    rewrite bool_decide_eq_true_2 by (rewrite Hpi; apply list_elem_of_here).
    unfold outcome_view; simpl. now rewrite !filter_snoc_out.
  - simpl. unfold run_queue. rewrite Hq. simpl.
    unfold outcome_view; simpl. now rewrite Hq.
Qed.

Lemma exec_waiting (acts : list Action) :
  Forall (fun a => ∀ c, a ≠ SourceData c) acts →
  ∀ (w : World) (ev2 : list Event),
    outcome_view w =
      (Some (BodyFn 0), [Pending], [],
       [{| cl_triggered := true; cl_promise := 0 |}], [0], [], ev2) →
    outcome_view (exec acts w) = outcome_view w.
Proof.
  induction 1 as [|a acts Ha _ IH]; intros w ev2 Hw; simpl; [reflexivity|].
  pose proof (step_waiting a w ev2 Ha Hw) as Hstep.
  rewrite (IH _ ev2); [exact Hstep|]. now rewrite Hstep.
Qed.

(** X14.  On a request as built, once the collecting function has been
    called, the promise of the body stays pending, with no reaction
    scheduled, for as long as no chunk arrives, whatever else happens: the
    end of the stream, turns, [raw], [pipe], more accesses and calls.  The
    [end] function that [collectBody] hands to [Writable] is not called
    when the stream ends, so a body without any chunk is never settled. *)
Theorem body_without_chunk (r : IncomingMessage) (server : Server)
    (m : ModuleState) (w0 : World) (acts : list Action) :
  makeKnorkRequest r server m = Normal w0 →
  Forall (fun a => ∀ c, a ≠ SourceData c) acts →
  let w := exec (Get PBody :: Call (VBodyFn 0) [] :: acts) w0 in
  promises w = [Pending] ∧ queue w = [] ∧
  List.filter (settles 0) (log w) = [].
Proof.
  intros Hmk Hacts. apply makeKnorkRequest_shape in Hmk as (m1 & v & ->).
  cbv zeta. rewrite !exec_cons, step_get_snd.
  destruct (ask_body m1 r v) as (_ & _ & Hw2).
  change (snd (step (Call (VBodyFn 0) []) ?x))
    with (snd (call (VBodyFn 0) [] x)).
  cbv zeta in Hw2. rewrite Hw2.
  match goal with |- context [exec acts ?x] => set (w2 := x) end.
  assert (Hinv : outcome_view (exec acts w2) = outcome_view w2)
    by now apply (exec_waiting acts Hacts w2 []).
  unfold outcome_view in Hinv. injection Hinv as _ Hp Hq _ _ H1 _.
  rewrite Hp, Hq, H1. now repeat split.
Qed.

(** ** The transaction middleware *)

Lemma processView_times_succ (n : nat) (mt : Match) :
  processView_times (S n) mt = snd (processView (processView_times n mt)).
Proof.
  revert mt. induction n as [|n IH]; intros mt; [reflexivity|].
  change (processView_times (S (S n)) mt)
    with (processView_times (S n) (snd (processView mt))).
  now rewrite IH.
Qed.

(** X15.  [processView] touches nothing but [execute].  Applied [n]
    times to a match whose action is not marked [noTransaction], or whose
    name is that of a property the controller only inherits from
    [Object.prototype], it wraps [execute] in [n] more transactions, one
    per application, around the same function of the router; applied to a
    match whose action is marked [noTransaction], or whose name is no
    property of the controller at all (where it throws), it leaves the
    match as it is. *)
Theorem processView_repeated (n : nat) (mt : Match) :
  controller (processView_times n mt) = controller mt ∧
  match_name (processView_times n mt) = match_name mt ∧
  installed_function (execute (processView_times n mt))
  = installed_function (execute mt) ∧
  match controller mt !! match_name mt with
  | Some action =>
      fst (processView mt) = Normal tt ∧
      if noTransaction action
      then processView_times n mt = mt
      else transaction_depth (execute (processView_times n mt))
           = n + transaction_depth (execute mt)
  | None =>
      if bool_decide (match_name mt ∈ Object_prototype)
      then fst (processView mt) = Normal tt ∧
           transaction_depth (execute (processView_times n mt))
           = n + transaction_depth (execute mt)
      else (∃ e, fst (processView mt) = Throws e) ∧
           processView_times n mt = mt
  end.
Proof.
  induction n as [|n IH].
  - repeat split. unfold processView.
    destruct (controller mt !! match_name mt) as [action|].
    + now destruct (noTransaction action).
    + destruct (bool_decide _); [now split|eauto].
  - rewrite processView_times_succ.
    destruct IH as (Hc & Hn & Hf & IH).
    set (mn := processView_times n mt) in *.
    assert (Hsnd : snd (processView mn) =
                   match controller mt !! match_name mt with
                   | Some action =>
                       if noTransaction action then mn else in_transaction mn
                   | None =>
                       if bool_decide (match_name mt ∈ Object_prototype)
                       then in_transaction mn else mn
                   end).
    { unfold processView. rewrite Hc, Hn.
      destruct (controller mt !! match_name mt) as [action|].
      - now destruct (noTransaction action).
      - now destruct (bool_decide _). }
    rewrite Hsnd. clear Hsnd.
    destruct (controller mt !! match_name mt) as [action|] eqn:Ea.
    + destruct IH as [Hret IH]. destruct (noTransaction action) eqn:En.
      * now repeat split.
      * simpl. repeat split; try assumption. now rewrite IH.
    + destruct (bool_decide (match_name mt ∈ Object_prototype)).
      * destruct IH as [Hret IH]. simpl.
        repeat split; try assumption. now rewrite IH.
      * destruct IH as [Hthrow IH]. now repeat split.
Qed.

End Properties.

(** * The model run on the sample collaborators *)

#[local] Existing Instance Sample.platform.

Lemma sample_request_built :
  makeKnorkRequest (Sample.request {["request-id" := "abc"]})
    (Sample.server false None) Sample.module0
  = Normal Sample.world0.
Proof. vm_compute. reflexivity. Qed.

(** C1 (as stated, refuted).  [body] is accessed and the collection
    started; [raw] is then read and the deferred callbacks run.  The
    promise of the body is still pending, it has not been rejected with
    the error of [raw], nothing is scheduled that would settle it, and the
    sink is still piped from the request. *)
Lemma raw_after_body_keeps_collecting :
  let w1 := exec [Get PBody; Call (VBodyFn 0) []] Sample.world0 in
  let w := exec [Get PRaw; Turn] w1 in
  fst (step (Call (VBodyFn 0) []) (snd (step (Get PBody) Sample.world0)))
  = Normal (VPromise 0) ∧
  promises w1 !! 0 = Some Pending ∧
  promises w !! 0 = Some Pending ∧
  promises w !! 0 ≠ Some (Rejected raw_accessed) ∧
  queue w = [] ∧
  pipes w = [0] ∧
  List.filter (fun e => match e with EvUnpipe _ => true | _ => false end)
    (log w) = [].
Proof. vm_compute. repeat split. discriminate. Qed.

(** C2.  A body of two chunks of 600 bytes, 1200 bytes against a ceiling
    of 1000.  [body] is read, the stream delivers both chunks and ends,
    and the deferred callbacks run.  What [body] returns is the collecting
    function, not a promise; nothing has called it, so the request is
    never piped into a sink, no chunk reaches the facade, nothing is
    unpiped, and the promise behind the function is still pending with
    nothing scheduled: no rejection and no 413.  Had the function been
    called, the rejection would have come with the first chunk, at 600
    bytes, under the ceiling. *)
Theorem oversized_body_not_rejected :
  let c := replicate 600 Byte.x61 in
  let chunks := [c; c] in
  let w := exec (Get PBody :: deliver chunks) Sample.world0 in
  let w' := exec [Get PBody; Call (VBodyFn 0) []; SourceData c]
              Sample.world0 in
  (opts_maxBodySize (opts (Sample.server false None)) ≤ total_bytes chunks)%Z ∧
  fst (KnorkRequest_get PBody Sample.world0) = VBodyFn 0 ∧
  promises w = [Pending] ∧
  promises w !! 0 ≠ Some (Rejected payload_too_large) ∧
  queue w = [] ∧
  stream_view w = ([], [], [], []) ∧
  log w = [] ∧
  (total_bytes [c] < opts_maxBodySize (opts (Sample.server false None)))%Z ∧
  promises w' = [Rejected payload_too_large].
Proof. vm_compute. repeat split; discriminate. Qed.

(** C3.  A body of one chunk, [{}], two bytes under a ceiling of 1000,
    which parses as JSON: [body] returns the collecting function rather
    than a promise, and the promise that this function returns is rejected
    with the 413 error instead of being fulfilled with the parsed value. *)
Theorem small_json_body_rejected :
  let chunks := [list_byte_of_string "{}"] in
  let w :=
    exec (Get PBody :: Call (VBodyFn 0) [] :: deliver chunks)
      Sample.world0 in
  (total_bytes chunks < opts_maxBodySize (opts (Sample.server false None)))%Z ∧
  JSON_parse (toString_utf8 (concat chunks)) = inl (JObject []) ∧
  fst (KnorkRequest_get PBody Sample.world0) = VBodyFn 0 ∧
  promises w !! 0 = Some (Rejected payload_too_large) ∧
  promises w !! 0 ≠ Some (Fulfilled (JObject [])).
Proof. vm_compute. repeat split. discriminate. Qed.

(** C5.  A body of one chunk, [{bad], four bytes under a ceiling of
    1000, which does not parse as JSON: the promise is rejected with the
    413 error, not with the parse error tagged 400. *)
Theorem small_malformed_body_rejected_413 :
  let chunks := [list_byte_of_string "{bad"] in
  let w :=
    exec (Get PBody :: Call (VBodyFn 0) [] :: deliver chunks)
      Sample.world0 in
  (total_bytes chunks < opts_maxBodySize (opts (Sample.server false None)))%Z ∧
  JSON_parse (toString_utf8 (concat chunks)) = inr Sample.syntax_error ∧
  promises w !! 0 = Some (Rejected payload_too_large) ∧
  err_statusCode payload_too_large = Some 413%Z ∧
  promises w !! 0
  ≠ Some (Rejected (assign_statusCode Sample.syntax_error 400)).
Proof. vm_compute. repeat split. discriminate. Qed.

(** C7 (as stated, refuted).  Internal mode, candidate names configured
    as [x-trace], and a request carrying [x-trace: abc]: the id is unset
    at construction and [id] returns a generated identifier, not [abc]. *)
Lemma internal_id_ignores_candidates :
  let r := Sample.request {["x-trace" := "abc"]} in
  let server := Sample.server false (Some ["x-trace"]) in
  ∃ w0,
    makeKnorkRequest r server Sample.module0 = Normal w0 ∧
    impl_id (impl w0) = None ∧
    fst (KnorkRequest_get PId w0) = VString "AAECAwQFBgcICQoLDA0ODw==" ∧
    fst (KnorkRequest_get PId w0) ≠ VString "abc".
Proof.
  eexists. split; [vm_compute; reflexivity|].
  vm_compute. repeat split. discriminate.
Qed.

(** ** The theorems at concrete requests *)

Lemma disabling_leaves_started_body_witness :
  let w := exec [Get PBody; Call (VBodyFn 0) []] Sample.world0 in
  disabling (Get PRaw) ∧ is_Some (impl_body (impl w)) ∧
  promises (snd (step (Get PRaw) w)) = promises w ∧
  pipes (snd (step (Get PRaw) w)) = pipes w.
Proof.
  intros w.
  assert (Hd : disabling (Get PRaw)) by (left; reflexivity).
  assert (Hb : is_Some (impl_body (impl w)))
    by (exists (BodyFn 0); reflexivity).
  split; [exact Hd|]. split; [exact Hb|].
  destruct (disabling_leaves_started_body w (Get PRaw) Hd Hb)
    as (Hp & _ & _ & _ & Hpi & _).
  split; [exact Hp|exact Hpi].
Defined.

Lemma body_after_raw_rejects_witness :
  let r := Sample.request {["request-id" := "abc"]} in
  let server := Sample.server false None in
  makeKnorkRequest r server Sample.module0 = Normal Sample.world0 ∧
  Forall (fun a => a ≠ Get PBody) [Get PId] ∧
  disabling (Get PRaw) ∧
  fst (step (Get PBody)
         (exec ([Get PId] ++ Get PRaw :: [Turn; Get PBody]) Sample.world0))
  = Normal (VPromise 0).
Proof.
  intros r server.
  assert (Hmk : makeKnorkRequest r server Sample.module0
                = Normal Sample.world0) by (vm_compute; reflexivity).
  assert (Hpre : Forall (fun a => a ≠ Get PBody) [Get PId])
    by (repeat constructor; discriminate).
  assert (Hd : disabling (Get PRaw)) by (left; reflexivity).
  split; [exact Hmk|]. split; [exact Hpre|]. split; [exact Hd|].
  destruct (body_after_raw_rejects r server Sample.module0 Sample.world0
              [Get PId] [Turn; Get PBody] (Get PRaw) Hmk Hpre Hd)
    as (Hv & _).
  exact Hv.
Defined.

Lemma internal_id_from_request_id_witness :
  let r := Sample.request {["request-id" := "abc"]} in
  let server := Sample.server false (Some ["x-trace"]) in
  module_ok Sample.module0 ∧ isExternal (opts server) = false ∧
  ∃ w0, makeKnorkRequest r server Sample.module0 = Normal w0.
Proof.
  intros r server.
  assert (Hm : module_ok Sample.module0) by reflexivity.
  assert (Hint : isExternal (opts server) = false) by reflexivity.
  split; [exact Hm|]. split; [exact Hint|].
  destruct (internal_id_from_request_id r server Sample.module0 Hm Hint)
    as (w0 & Hmk & _).
  exists w0. exact Hmk.
Defined.


Lemma empty_request_id_is_absent_witness :
  let r := Sample.request {["request-id" := ""]} in
  let server := Sample.server false None in
  module_ok Sample.module0 ∧ isExternal (opts server) = false ∧
  headers r !! "request-id" = Some "" ∧
  ∃ w, makeKnorkRequest r server Sample.module0 = Normal w ∧
       fst (KnorkRequest_get PId w) = VString (next_id Sample.module0).
Proof.
  intros r server.
  assert (Hm : module_ok Sample.module0) by reflexivity.
  assert (Hint : isExternal (opts server) = false) by reflexivity.
  assert (Hh : headers r !! "request-id" = Some "")
    by (vm_compute; reflexivity).
  split; [exact Hm|]. split; [exact Hint|]. split; [exact Hh|].
  destruct (empty_request_id_is_absent r server Sample.module0 Hm Hint Hh)
    as (w & w' & Hmk & _ & _ & _ & _ & Hid & _).
  exists w. split; [exact Hmk|exact Hid].
Defined.

(** ** The further properties at concrete requests *)

Lemma external_id_derivation_witness :
  let r := Sample.request {["request-id" := "abc"]} in
  let server := Sample.server true None in
  module_ok Sample.module0 ∧ isExternal (opts server) = true ∧
  Forall (fun s => toLowerCase s = s ∧ s ∉ Object_prototype)
    (candidates server) ∧
  ∃ w0, makeKnorkRequest r server Sample.module0 = Normal w0.
Proof.
  intros r server.
  assert (Hm : module_ok Sample.module0) by reflexivity.
  assert (Hext : isExternal (opts server) = true) by reflexivity.
  assert (Hlow : Forall (fun s => toLowerCase s = s ∧ s ∉ Object_prototype)
                   (candidates server)).
  { repeat constructor.
    apply (bool_decide_unpack _). vm_compute. exact I. }
  split; [exact Hm|]. split; [exact Hext|]. split; [exact Hlow|].
  destruct (external_id_derivation r server Sample.module0 Hm Hext Hlow)
    as (w0 & Hmk & _).
  exists w0. exact Hmk.
Defined.

(** A candidate named [constructor]: the test [in] holds on a request
    that carries no such header, and hashing what the lookup yields
    throws. *)
Lemma constructor_candidate_throws :
  makeKnorkRequest (Sample.request {["request-id" := "abc"]})
    (Sample.server true (Some ["constructor"; "request-id"]))
    Sample.module0
  = Throws (TypeError "Data must be a string or a buffer").
Proof. vm_compute. reflexivity. Qed.

Lemma generated_id_format_witness :
  let w := set_impl (set_id None (impl Sample.world0)) Sample.world0 in
  module_ok (modstate w) ∧ truthy (impl_id (impl w)) = false ∧
  ∃ id, fst (KnorkRequest_get PId w) = VString id ∧ String.length id = 24.
Proof.
  intros w.
  assert (Hm : module_ok (modstate w)) by reflexivity.
  assert (Hid : truthy (impl_id (impl w)) = false) by reflexivity.
  split; [exact Hm|]. split; [exact Hid|].
  destruct (generated_id_format w Hm Hid) as (id & Hget & Hlen & _).
  exists id. split; [exact Hget|exact Hlen].
Defined.

Lemma generated_ids_equal_iff_witness :
  let m := Sample.module0 in
  let m' := uuid_v4 Sample.module0 in
  module_ok m ∧ module_ok m' ∧
  (fst (generateID m) = fst (generateID m') ↔
   ∀ ii, ii < 16 →
         uuid_rnds (uuid_calls m) ii = uuid_rnds (uuid_calls m') ii).
Proof.
  intros m m'.
  assert (Hm : module_ok m) by reflexivity.
  assert (Hm' : module_ok m') by reflexivity.
  split; [exact Hm|]. split; [exact Hm'|].
  exact (generated_ids_equal_iff m m' Hm Hm').
Defined.

Lemma successive_requests_ids_witness :
  let r := Sample.request ∅ in
  let server := Sample.server false None in
  module_ok Sample.module0 ∧ isExternal (opts server) = false ∧
  truthy (headers r !! "request-id") = false ∧
  ∃ w1 w2,
    makeKnorkRequest r server Sample.module0 = Normal w1 ∧
    fst (KnorkRequest_get PId w2)
    = VString (base64 (map (uuid_rnds 1) (seq 0 16))).
Proof.
  intros r server.
  assert (Hm : module_ok Sample.module0) by reflexivity.
  assert (Hint : isExternal (opts server) = false) by reflexivity.
  assert (Hh : truthy (headers r !! "request-id") = false) by reflexivity.
  split; [exact Hm|]. split; [exact Hint|]. split; [exact Hh|].
  destruct (successive_requests_ids r r server server Sample.module0
              Hm Hint Hint Hh Hh) as (w1 & w2 & Hmk & _ & _ & _ & Hid2).
  exists w1, w2. split; [exact Hmk|exact Hid2].
Defined.

Lemma no_collection_without_call_witness :
  let r := Sample.request {["request-id" := "abc"]} in
  let server := Sample.server false None in
  let acts := [Get PBody; SourceData (list_byte_of_string "{}"); SourceEnd;
               Turn] in
  makeKnorkRequest r server Sample.module0 = Normal Sample.world0 ∧
  Forall (fun a => ∀ c args, a ≠ Call (VBodyFn c) args) acts ∧
  stream_view (exec acts Sample.world0) = ([], [], [], []).
Proof.
  intros r server acts.
  assert (Hmk : makeKnorkRequest r server Sample.module0
                = Normal Sample.world0) by (vm_compute; reflexivity).
  assert (Hacts : Forall (fun a => ∀ c args, a ≠ Call (VBodyFn c) args) acts)
    by (repeat constructor; intros; discriminate).
  split; [exact Hmk|]. split; [exact Hacts|].
  exact (no_collection_without_call r server Sample.module0 Sample.world0
           acts Hmk Hacts).
Defined.

Lemma first_chunk_decides_witness :
  let r := Sample.request {["request-id" := "abc"]} in
  let server := Sample.server false None in
  let c := list_byte_of_string "{}" in
  makeKnorkRequest r server Sample.module0 = Normal Sample.world0 ∧
  promises
    (exec (Get PBody :: Call (VBodyFn 0) [] :: SourceData c
           :: [SourceData c; SourceEnd; Get PRaw; Turn]) Sample.world0)
  = [Rejected payload_too_large].
Proof.
  intros r server c.
  assert (Hmk : makeKnorkRequest r server Sample.module0
                = Normal Sample.world0) by (vm_compute; reflexivity).
  split; [exact Hmk|].
  destruct (first_chunk_decides r server Sample.module0 Sample.world0 c
              [SourceData c; SourceEnd; Get PRaw; Turn] Hmk) as (Hp & _).
  exact Hp.
Defined.

Lemma one_function_one_promise_witness :
  let r := Sample.request {["request-id" := "abc"]} in
  let server := Sample.server false None in
  let w := exec ([Get PId] ++ Get PBody :: [Get PRaw]) Sample.world0 in
  makeKnorkRequest r server Sample.module0 = Normal Sample.world0 ∧
  Forall (fun a => ¬ disabling a) [Get PId] ∧
  KnorkRequest_get PBody w = (VBodyFn 0, w).
Proof.
  intros r server w.
  assert (Hmk : makeKnorkRequest r server Sample.module0
                = Normal Sample.world0) by (vm_compute; reflexivity).
  assert (Hpre : Forall (fun a => ¬ disabling a) [Get PId]).
  { repeat constructor. intros [Hraw|[args Hcall]]; discriminate. }
  split; [exact Hmk|]. split; [exact Hpre|].
  destruct (one_function_one_promise r server Sample.module0 Sample.world0
              [Get PId] [Get PRaw] Hmk Hpre) as (Hget & _).
  exact Hget.
Defined.

Lemma write_handler_at_ceiling_witness :
  let k := {| bytesWritten := 0; acc := []; write_inert := false;
              sink_promise := 0 |} in
  let w := exec [Get PBody; Call (VBodyFn 0) []] Sample.world0 in
  let c := list_byte_of_string "{}" in
  sinks w !! 0 = Some k ∧ write_inert k = false ∧
  js_lt (bytesWritten k + Z.of_nat (length c)) (impl_maxBodySize (impl w))
  = false ∧
  promises w !! sink_promise k = Some Pending ∧
  promises (sink_write 0 c w) !! sink_promise k
  = Some (Rejected payload_too_large).
Proof.
  intros k w c.
  assert (Hs : sinks w !! 0 = Some k) by reflexivity.
  assert (Hi : write_inert k = false) by reflexivity.
  assert (Hlt : js_lt (bytesWritten k + Z.of_nat (length c))
                  (impl_maxBodySize (impl w)) = false) by reflexivity.
  assert (Hp : promises w !! sink_promise k = Some Pending) by reflexivity.
  repeat (split; [assumption|]).
  destruct (write_handler_at_ceiling 0 c [c; c] w k Hs Hi Hlt Hp)
    as (Hrej & _).
  exact Hrej.
Defined.

Lemma body_without_chunk_witness :
  let r := Sample.request {["request-id" := "abc"]} in
  let server := Sample.server false None in
  let acts := (deliver [] ++ [Get PRaw; Get PBody; Turn])%list in
  makeKnorkRequest r server Sample.module0 = Normal Sample.world0 ∧
  Forall (fun a => ∀ c, a ≠ SourceData c) acts ∧
  promises (exec (Get PBody :: Call (VBodyFn 0) [] :: acts) Sample.world0)
  = [Pending].
Proof.
  intros r server acts.
  assert (Hmk : makeKnorkRequest r server Sample.module0
                = Normal Sample.world0) by (vm_compute; reflexivity).
  assert (Hacts : Forall (fun a => ∀ c, a ≠ SourceData c) acts)
    by (repeat constructor; intros; discriminate).
  split; [exact Hmk|]. split; [exact Hacts|].
  destruct (body_without_chunk r server Sample.module0 Sample.world0 acts
              Hmk Hacts) as (Hp & _).
  exact Hp.
Defined.

(** A match named [toString] on a controller without an action of its
    own by that name: the lookup finds the inherited function, and
    [execute] is wrapped. *)
Lemma processView_inherited_name :
  processView {| controller := ∅; match_name := "toString";
                 execute := Installed 0 |}
  = (Normal tt,
     {| controller := ∅; match_name := "toString";
        execute := InTransaction (Installed 0) |}).
Proof. vm_compute. reflexivity. Qed.
